(** * A shallow embedding of the spatial package's quadtree

    The Go package [spatial] stores 2-D points in a region quadtree and
    answers rectangle and k-nearest queries.  Coordinates are [float64];
    they are modelled by Rocq's primitive binary64 floats, whose
    operations are the same IEEE 754 operations (round to nearest, ties
    to even) that Go performs for [+], [-], [*], [/], [math.Sqrt] and the
    comparisons.

    Layout: the data model and the operations in source order, the
    notions the properties are stated with, then the properties, which
    begin with the order facts of binary64 comparison that they need and
    end with further properties of each operation. *)

From Stdlib Require Import Floats ZArith Strings.String.
From stdpp Require Import base tactics option list sets sorting.
From Stdlib Require Import Lia.

Set Default Proof Using "Type".

(** ** Comparisons as Go writes them *)

Module F64.

(** Go's [a > b] and [a >= b] are the flipped [<] and [<=]. *)
Definition gtb (a b : float) : bool := (b <? a)%float.
Definition geb (a b : float) : bool := (b <=? a)%float.

End F64.

(** ** Data model *)

(** The dynamic values that callers store in [Data interface{}]. *)
Inductive Any : Type :=
| ANil
| AString (s : string)
| AInt (n : Z).

Module Point.
Record t : Type := mk { X : float; Y : float; Data : Any }.
End Point.

Module Bounds.
Local Open Scope float_scope.

(** [X], [Y] is the top-left corner. *)
Record t : Type := mk { X : float; Y : float; Width : float; Height : float }.

Definition Intersects (b other : t) : bool :=
  negb (F64.gtb (X b) (X other + Width other)
        || (X b + Width b <? X other)
        || F64.gtb (Y b) (Y other + Height other)
        || (Y b + Height b <? Y other)).

Definition Contains (b : t) (point : Point.t) : bool :=
  F64.geb (Point.X point) (X b)
  && (Point.X point <=? X b + Width b)
  && (Point.Y point <=? Y b + Height b)
  && F64.geb (Point.Y point) (Y b).
End Bounds.

(** A [Node] whose [Children[0]] is nil is a leaf; [SubDivide] is the only
    code that assigns children and it assigns all four at once, so a node
    has either no child or four.  The [Points] field exists in both
    states. *)
Inductive Node : Type :=
| Leaf (bounds : Bounds.t) (points : list Point.t) (capacity : Z)
| Inner (bounds : Bounds.t) (points : list Point.t) (capacity : Z)
        (c0 c1 c2 c3 : Node).

Module Node.
Local Open Scope float_scope.

Definition Bounds (n : Node) : Bounds.t :=
  match n with Leaf b _ _ | Inner b _ _ _ _ _ _ => b end.
Definition Points (n : Node) : list Point.t :=
  match n with Leaf _ ps _ | Inner _ ps _ _ _ _ _ => ps end.
Definition Capacity (n : Node) : Z :=
  match n with Leaf _ _ c | Inner _ _ c _ _ _ _ => c end.

Abbreviation quad := (Node * Node * Node * Node)%type.

(** [for i := 0; i < 4; i++ { if n.Children[i].InsertNode(p) {...} }]:
    the children are tried in index order and the first one that
    accepts ends the loop; a child that refuses may still have been
    changed by its own attempt.  [ins] is the recursive call; [None]
    means that the recursion did not come back. *)
Definition first_accepting (ins : Node -> Point.t -> option (Node * bool))
    (cs : quad) (p : Point.t) : option (quad * bool) :=
  let '(c0, c1, c2, c3) := cs in
  '(c0, r) ← ins c0 p;
  if r : bool then Some ((c0, c1, c2, c3), true) else
  '(c1, r) ← ins c1 p;
  if r : bool then Some ((c0, c1, c2, c3), true) else
  '(c2, r) ← ins c2 p;
  if r : bool then Some ((c0, c1, c2, c3), true) else
  '(c3, r) ← ins c3 p;
  Some ((c0, c1, c2, c3), r).

(** [for _, p := range n.Points { ... break on the first acceptance }]:
    the result of the attempt is not looked at. *)
Fixpoint redistribute (ins : Node -> Point.t -> option (Node * bool))
    (ps : list Point.t) (cs : quad) : option quad :=
  match ps with
  | [] => Some cs
  | p :: ps => '(cs, _) ← first_accepting ins cs p; redistribute ins ps cs
  end.

(** The four fresh children of [SubDivide], NW, NE, SW, SE. *)
Definition fresh_children (b : Bounds.t) (cap : Z) : quad :=
  let x := Bounds.X b in
  let y := Bounds.Y b in
  let w := Bounds.Width b / 2 in
  let h := Bounds.Height b / 2 in
  (Leaf (Bounds.mk x y w h) [] cap,
   Leaf (Bounds.mk (x + w) y w h) [] cap,
   Leaf (Bounds.mk x (y + h) w h) [] cap,
   Leaf (Bounds.mk (x + w) (y + h) w h) [] cap).

Definition SubDivide_with (ins : Node -> Point.t -> option (Node * bool))
    (n : Node) : option Node :=
  '(c0, c1, c2, c3) ← redistribute ins (Points n)
                        (fresh_children (Bounds n) (Capacity n));
  Some (Inner (Bounds n) [] (Capacity n) c0 c1 c2 c3).

(** [InsertNode] and [SubDivide] call each other and build the nodes
    they recurse into, so the depth of the recursion is bounded by
    [fuel]; [None] says that the bound was reached. *)
Fixpoint InsertNode (fuel : nat) (n : Node) (point : Point.t)
    : option (Node * bool) :=
  match fuel with
  | O => None
  | S fuel =>
    if negb (Bounds.Contains (Bounds n) point) then Some (n, false) else
    match n with
    | Inner b ps cap c0 c1 c2 c3 =>
        '((c0, c1, c2, c3), r) ←
           first_accepting (InsertNode fuel) (c0, c1, c2, c3) point;
        Some (Inner b ps cap c0 c1 c2 c3, r)
    | Leaf b ps cap =>
        if (Z.of_nat (length ps) <? cap)%Z
        then Some (Leaf b (ps ++ [point]) cap, true)
        else
          n' ← SubDivide_with (InsertNode fuel) n;
          match n' with
          | Inner b ps cap c0 c1 c2 c3 =>
              '((c0, c1, c2, c3), r) ←
                 first_accepting (InsertNode fuel) (c0, c1, c2, c3) point;
              Some (Inner b ps cap c0 c1 c2 c3, r)
          | Leaf _ _ _ => Some (n', false) (* not taken: [n'] has children *)
          end
    end
  end.

Definition SubDivide (fuel : nat) (n : Node) : option Node :=
  SubDivide_with (InsertNode fuel) n.

(** [SearchTree] appends to the caller's accumulator. *)
Fixpoint SearchTree (n : Node) (searchArea : Bounds.t)
    (resultPoints : list Point.t) : list Point.t :=
  if negb (Bounds.Intersects (Bounds n) searchArea) then resultPoints else
  match n with
  | Inner _ _ _ c0 c1 c2 c3 =>
      SearchTree c3 searchArea
        (SearchTree c2 searchArea
           (SearchTree c1 searchArea
              (SearchTree c0 searchArea resultPoints)))
  | Leaf _ ps _ =>
      resultPoints ++ List.filter (Bounds.Contains searchArea) ps
  end.

(** [exist.X == point.X && exist.Y == point.Y] *)
Definition same_xy (exist point : Point.t) : bool :=
  (Point.X exist =? Point.X point) && (Point.Y exist =? Point.Y point).

(** Index of the first stored point that matches, counting from [i]. *)
Fixpoint find_match (point : Point.t) (ps : list Point.t) (i : nat)
    : option nat :=
  match ps with
  | [] => None
  | e :: ps =>
      if same_xy e point then Some i else find_match point ps (S i)
  end.

(** [n.Points[i] = n.Points[len-1]; n.Points = n.Points[:len-1]] *)
Definition swap_remove (i : nat) (ps : list Point.t) : list Point.t :=
  match ps !! (length ps - 1)%nat with
  | Some lst => take (length ps - 1) (<[i := lst]> ps)
  | None => ps
  end.

Fixpoint RemoveNode (n : Node) (point : Point.t) : Node * bool :=
  if negb (Bounds.Contains (Bounds n) point) then (n, false) else
  match n with
  | Inner b ps cap c0 c1 c2 c3 =>
      let '(c0', r) := RemoveNode c0 point in
      if r then (Inner b ps cap c0' c1 c2 c3, true) else
      let '(c1', r) := RemoveNode c1 point in
      if r then (Inner b ps cap c0' c1' c2 c3, true) else
      let '(c2', r) := RemoveNode c2 point in
      if r then (Inner b ps cap c0' c1' c2' c3, true) else
      let '(c3', r) := RemoveNode c3 point in
      (Inner b ps cap c0' c1' c2' c3', r)
  | Leaf b ps cap =>
      match find_match point ps 0 with
      | Some i => (Leaf b (swap_remove i ps) cap, true)
      | None => (n, false)
      end
  end.
End Node.

(** What a call on the index comes to: it returns, it dereferences a nil
    [Root], or its recursion does not come back within the fuel. *)
Inductive outcome (A : Type) : Type :=
| Returns (a : A)
| NilRoot
| OutOfFuel.
Arguments Returns {A} a.
Arguments NilRoot {A}.
Arguments OutOfFuel {A}.

(** The lock serialises the calls; one call at a time is what is modelled. *)
Record QuadTree : Type := mkQuadTree { Root : option Node }.

(** [PointWithDistance], the helper struct of the sort. *)
Module PointWithDistance.
Record t : Type := mk { Point : Point.t; Distance : float }.
End PointWithDistance.

Module QuadTree.
Local Open Scope float_scope.

Definition Update (fuel : nat) (qt : QuadTree) (oldPoint newPoint : Point.t)
    : outcome (QuadTree * bool) :=
  match Root qt with
  | None => NilRoot
  | Some root =>
    if negb (Bounds.Contains (Node.Bounds root) newPoint)
    then Returns (qt, false) else
    let '(root1, removed) := Node.RemoveNode root oldPoint in
    if removed then
      match Node.InsertNode fuel root1 newPoint with
      | None => OutOfFuel
      | Some (root2, true) => Returns (mkQuadTree (Some root2), true)
      | Some (root2, false) =>
          match Node.InsertNode fuel root2 oldPoint with
          | None => OutOfFuel
          | Some (root3, _) => Returns (mkQuadTree (Some root3), false)
          end
      end
    else Returns (mkQuadTree (Some root1), false)
  end.

Definition Remove (qt : QuadTree) (point : Point.t)
    : outcome (QuadTree * bool) :=
  match Root qt with
  | None => NilRoot
  | Some root =>
      let '(root', r) := Node.RemoveNode root point in
      Returns (mkQuadTree (Some root'), r)
  end.

Definition Insert (fuel : nat) (qt : QuadTree) (point : Point.t)
    : outcome (QuadTree * bool) :=
  match Root qt with
  | None => NilRoot
  | Some root =>
      match Node.InsertNode fuel root point with
      | None => OutOfFuel
      | Some (root', res) => Returns (mkQuadTree (Some root'), res)
      end
  end.

(** [SearchTree] returns at once on a nil receiver. *)
Definition Search (qt : QuadTree) (area : Bounds.t) : list Point.t :=
  match Root qt with
  | None => []
  | Some root => Node.SearchTree root area []
  end.

(** Every operation rounds.  (Go may fuse [dx*dx + dy*dy] into one
    rounding on some platforms; no property below depends on how this sum
    is rounded.) *)
Definition Distance (p1 p2 : Point.t) : float :=
  let dx := Point.X p2 - Point.X p1 in
  let dy := Point.Y p2 - Point.Y p1 in
  sqrt (dx * dx + dy * dy).

(** The inner loop of [sortByDistance],
    [for j >= 0 && points[j].Distance > key.Distance
       { points[j+1] = points[j]; j-- }; points[j+1] = key].
    The counter is kept as [j1 = j + 1], a natural number. *)
Fixpoint shift_down (points : list PointWithDistance.t)
    (key : PointWithDistance.t) (j1 : nat) : list PointWithDistance.t :=
  match j1 with
  | O => <[O := key]> points
  | S j =>
      match points !! j with
      | Some pj =>
          if F64.gtb (PointWithDistance.Distance pj) (PointWithDistance.Distance key)
          then shift_down (<[S j := pj]> points) key j
          else <[S j := key]> points
      | None => points
      end
  end.

(** The outer loop, [for i := 1; i < len(points); i++], with the number
    of iterations still to run as the decreasing argument. *)
Fixpoint sort_from (todo i : nat) (points : list PointWithDistance.t)
    : list PointWithDistance.t :=
  match todo with
  | O => points
  | S todo =>
      match points !! i with
      | Some key => sort_from todo (S i) (shift_down points key i)
      | None => points
      end
  end.

Definition sortByDistance (points : list PointWithDistance.t)
    : list PointWithDistance.t :=
  sort_from (length points - 1) 1 points.

(** Go's [int] on the 64-bit platforms: products wrap around. *)
Definition int_wrap (z : Z) : Z :=
  ((z + 2 ^ 63) mod 2 ^ 64 - 2 ^ 63)%Z.

(** Modelled from the Go standard library: [math.Max], with its special
    cases for infinities, NaN and signed zeros. *)
Definition math_Max (x y : float) : float :=
  if (x =? infinity) || (y =? infinity) then infinity
  else if is_nan x || is_nan y then nan
  else if (x =? 0) && (x =? y) then (if get_sign x then y else x)
  else if F64.gtb x y then x else y.

Definition searchBounds (target : Point.t) (searchRadius : float)
    : Bounds.t :=
  Bounds.mk (Point.X target - searchRadius) (Point.Y target - searchRadius)
            (searchRadius * 2) (searchRadius * 2).

(** The expanding-radius loop of [KNearest]; [results] is the variable
    of the same name, which keeps the last probe's answer. *)
Fixpoint probe (fuel : nat) (root : Node) (target : Point.t)
    (k maxPoints : Z) (maxRadius searchRadius : float)
    (results : list Point.t) : option (list Point.t) :=
  match fuel with
  | O => None
  | S fuel =>
    if searchRadius <=? maxRadius then
      let results := Node.SearchTree root (searchBounds target searchRadius) [] in
      if (k <=? Z.of_nat (length results))%Z then Some results
      else if F64.geb searchRadius maxRadius then Some results
      else if (maxPoints <? Z.of_nat (length results))%Z then Some results
      else probe fuel root target k maxPoints maxRadius
                 (searchRadius * 2) results
    else Some results
  end.

(** What [KNearest] holds in [results] when the loop is over. *)
Definition candidates (fuel : nat) (root : Node) (target : Point.t) (k : Z)
    : option (list Point.t) :=
  let maxPoints := int_wrap (k * 10) in
  let maxPoints := if (100000 <? maxPoints)%Z then 100000%Z else maxPoints in
  let maxRadius :=
    math_Max (Bounds.Width (Node.Bounds root))
             (Bounds.Height (Node.Bounds root)) * 2 in
  probe fuel root target k maxPoints maxRadius 10 [].

Definition with_distance (target : Point.t) (p : Point.t)
    : PointWithDistance.t :=
  PointWithDistance.mk p (Distance target p).

(** The part of [KNearest] after the loop. *)
Definition rank (target : Point.t) (k : Z) (results : list Point.t)
    : list Point.t :=
  if (length results =? 0)%nat then [] else
  let pointsWithDist := map (with_distance target) results in
  let pointsWithDist := sortByDistance pointsWithDist in
  let pointsWithDist :=
    if (k <? Z.of_nat (length pointsWithDist))%Z
    then take (Z.to_nat k) pointsWithDist else pointsWithDist in
  map PointWithDistance.Point pointsWithDist.

Definition KNearest (fuel : nat) (qt : QuadTree) (target : Point.t) (k : Z)
    : option (list Point.t) :=
  if (k <=? 0)%Z then Some [] else
  match Root qt with
  | None => Some []
  | Some root =>
      results ← candidates fuel root target k;
      Some (rank target k results)
  end.
End QuadTree.

(** ** Notions used in the properties *)

Import Node.
Import QuadTree.

(** The points a tree holds where [SearchTree] and [RemoveNode] look for
    them: in its leaves, NW first. *)
Fixpoint stored (n : Node) : list Point.t :=
  match n with
  | Leaf _ ps _ => ps
  | Inner _ _ _ c0 c1 c2 c3 => stored c0 ++ stored c1 ++ stored c2 ++ stored c3
  end.

Definition stored_in (qt : QuadTree) : list Point.t :=
  match Root qt with Some root => stored root | None => [] end.

(** A tree is created as one empty leaf with the caller's bounds and
    capacity, and is changed by [Insert], [Remove] and [Update] only. *)
Definition create (b : Bounds.t) (capacity : Z) : QuadTree :=
  mkQuadTree (Some (Leaf b [] capacity)).

Inductive reachable (b : Bounds.t) (capacity : Z) : QuadTree -> Prop :=
| reach_create : reachable b capacity (create b capacity)
| reach_Insert fuel qt p qt' r :
    reachable b capacity qt ->
    QuadTree.Insert fuel qt p = Returns (qt', r) ->
    reachable b capacity qt'
| reach_Remove qt p qt' r :
    reachable b capacity qt ->
    QuadTree.Remove qt p = Returns (qt', r) ->
    reachable b capacity qt'
| reach_Update fuel qt p q qt' r :
    reachable b capacity qt ->
    QuadTree.Update fuel qt p q = Returns (qt', r) ->
    reachable b capacity qt'.

(** Every stored point lies inside the rectangle of each node above it. *)
Fixpoint within (n : Node) : Prop :=
  Forall (fun q => Bounds.Contains (Bounds n) q = true) (stored n)
  /\ match n with
     | Leaf _ _ _ => True
     | Inner _ _ _ c0 c1 c2 c3 => within c0 /\ within c1 /\ within c2 /\ within c3
     end.

(** Every node carries the capacity [c], no leaf holds more than [c]
    points (none when [c] is negative), and no node with children holds
    points of its own. *)
Fixpoint cap_ok (c : Z) (n : Node) : Prop :=
  match n with
  | Leaf _ ps cap => cap = c /\ (Z.of_nat (length ps) <= Z.max 0 c)%Z
  | Inner _ ps cap c0 c1 c2 c3 =>
      cap = c /\ ps = [] /\
      cap_ok c c0 /\ cap_ok c c1 /\ cap_ok c c2 /\ cap_ok c c3
  end.

(** [touched ps n n']: [n'] is what attempts to insert points of [ps] may
    have made of [n].  Points can be added only from [ps] and only if the
    node's rectangle contains them; the rectangle stays, and the
    invariants are kept. *)
Definition touched (ps : list Point.t) (n n' : Node) : Prop :=
  Bounds n' = Bounds n
  /\ (forall c, cap_ok c n -> cap_ok c n')
  /\ (within n -> within n')
  /\ (forall q, q ∈ stored n' ->
        q ∈ stored n \/ (q ∈ ps /\ Bounds.Contains (Bounds n) q = true)).

Definition touched4 (ps : list Point.t) (cs cs' : quad) : Prop :=
  let '(c0, c1, c2, c3) := cs in
  let '(c0', c1', c2', c3') := cs' in
  touched ps c0 c0' /\ touched ps c1 c1' /\ touched ps c2 c2' /\ touched ps c3 c3'.

(** The invariants of a tree that the public operations have produced:
    it has a root, the root keeps the rectangle it was created with, the
    stored points lie inside the rectangles above them, and the capacity
    rule holds. *)
Definition tree_ok (b : Bounds.t) (capacity : Z) (qt : QuadTree) : Prop :=
  exists root, Root qt = Some root /\ Bounds root = b /\ within root
               /\ cap_ok capacity root.

(** [node_of n t]: the node [n] occurs in the tree [t]. *)
Inductive node_of (n : Node) : Node -> Prop :=
| node_of_here : node_of n n
| node_of_child b ps cap c0 c1 c2 c3 c :
    c ∈ [c0; c1; c2; c3] -> node_of n c ->
    node_of n (Inner b ps cap c0 c1 c2 c3).

(** Insertion of [key] into the already sorted slots, read from the last
    slot down: [r] is the sorted prefix in reverse. *)
Fixpoint ins_rev (key : PointWithDistance.t) (r : list PointWithDistance.t)
    : list PointWithDistance.t :=
  match r with
  | [] => [key]
  | pj :: r' =>
      if F64.gtb (PointWithDistance.Distance pj) (PointWithDistance.Distance key)
      then pj :: ins_rev key r' else key :: r
  end.

Definition place (key : PointWithDistance.t) (a : list PointWithDistance.t)
    : list PointWithDistance.t :=
  reverse (ins_rev key (reverse a)).

(** The array after the slots [a] have been sorted and the slots [rest]
    are still to be taken. *)
Fixpoint isort_acc (a rest : list PointWithDistance.t) : list PointWithDistance.t :=
  match rest with
  | [] => a
  | key :: rest => isort_acc (place key a) rest
  end.

(** Order and classes of equal distance on [PointWithDistance]. *)
Definition le_dist (x y : PointWithDistance.t) : Prop :=
  (PointWithDistance.Distance x <=? PointWithDistance.Distance y)%float = true.

Definition at_dist (d : float) (x : PointWithDistance.t) : bool :=
  (PointWithDistance.Distance x =? d)%float.

Definition no_nan (l : list PointWithDistance.t) : Prop :=
  Forall (fun x => is_nan (PointWithDistance.Distance x) = false) l.

(** [chain R l]: every slot is in relation [R] with the next one. *)
Fixpoint chain {A} (R : A -> A -> Prop) (l : list A) : Prop :=
  match l with
  | x :: (y :: _) as l' => R x y /\ chain R l'
  | _ => True
  end.

(** No slot is followed by a strictly nearer one.  This is meaningful for
    all binary64 values, NaN included. *)
Definition no_descent (x y : PointWithDistance.t) : Prop :=
  (PointWithDistance.Distance y <? PointWithDistance.Distance x)%float = false.

(** The radius after [d] doublings. *)
Fixpoint doubled (d : nat) (r : float) : float :=
  match d with
  | O => r
  | S d => doubled d (r * 2)%float
  end.

(** The ceiling of the radius, [maxRadius] of [KNearest]. *)
Definition maxRadius (root : Node) : float :=
  (math_Max (Bounds.Width (Bounds root)) (Bounds.Height (Bounds root)) * 2)%float.

(** The radius of the last probe of a loop that starts at [r], at most
    [ceiling], and that no count stops: the radius is doubled until it
    has reached the ceiling or its double is beyond it. *)
Fixpoint widest (fuel : nat) (ceiling r : float) : float :=
  match fuel with
  | O => r
  | S fuel =>
      if F64.geb r ceiling then r
      else if (r * 2 <=? ceiling)%float then widest fuel ceiling (r * 2)%float
      else r
  end.

(** The half-width of the widest square that [KNearest] probes on a
    tree, if it probes at all; 1022 doublings lead beyond every binary64
    value. *)
Definition widest_probe (root : Node) : option float :=
  if (10 <=? maxRadius root)%float
  then Some (widest 1022 (maxRadius root) 10)
  else None.

(** [p] is at most as far from [target] as [q]. *)
Definition nearer (target p q : Point.t) : Prop :=
  (Distance target p <=? Distance target q)%float = true.

(** [p] is at distance [d] from [target]. *)
Definition pt_at (target : Point.t) (d : float) (p : Point.t) : bool :=
  (Distance target p =? d)%float.

(** [q] is not strictly nearer to [target] than [p]. *)
Definition not_nearer (target p q : Point.t) : Prop :=
  (Distance target q <? Distance target p)%float = false.

(** Trees for the examples: the points are inserted one after the other. *)
Fixpoint populate (fuel : nat) (qt : QuadTree) (ps : list Point.t)
    : outcome QuadTree :=
  match ps with
  | [] => Returns qt
  | p :: ps =>
      match QuadTree.Insert fuel qt p with
      | Returns (qt', _) => populate fuel qt' ps
      | NilRoot => NilRoot
      | OutOfFuel => OutOfFuel
      end
  end.

(** The width after [n] halvings. *)
Fixpoint halved (n : nat) (w : float) : float :=
  match n with
  | O => w
  | S n => halved n (w / 2)%float
  end.

(** [origin_cell w]: however often a cell of origin 0 and extent [w] is
    halved, the closed interval from 0 to 0 + extent still holds 0. *)
Definition origin_cell (w : float) : Prop :=
  forall n, (0 <=? 0 + halved n w)%float = true.

(** The points stored under four children, in index order. *)
Definition stored4 (cs : quad) : list Point.t :=
  let '(c0, c1, c2, c3) := cs in
  stored c0 ++ stored c1 ++ stored c2 ++ stored c3.

(** What an insertion attempt with result [r] may have added. *)
Definition gain (r : bool) (p : Point.t) : list Point.t :=
  if r then [p] else [].

(** The tree without the points of its leaves: its nodes, their
    rectangles and capacities. *)
Fixpoint skeleton (n : Node) : Node :=
  match n with
  | Leaf b _ cap => Leaf b [] cap
  | Inner b ps cap c0 c1 c2 c3 =>
      Inner b ps cap (skeleton c0) (skeleton c1) (skeleton c2) (skeleton c3)
  end.

(** The rectangles of the four quadrants of [b], as [SubDivide] computes
    them: NW, NE, SW, SE. *)
Definition quadrants (b : Bounds.t) : Bounds.t * Bounds.t * Bounds.t * Bounds.t :=
  let x := Bounds.X b in
  let y := Bounds.Y b in
  let w := (Bounds.Width b / 2)%float in
  let h := (Bounds.Height b / 2)%float in
  (Bounds.mk x y w h,
   Bounds.mk (x + w)%float y w h,
   Bounds.mk x (y + h)%float w h,
   Bounds.mk (x + w)%float (y + h)%float w h).

(** [covered n b p]: [p] is inside [b] and, for [n] levels down, inside
    a quarter of [b], a quarter of that quarter, and so on. *)
Fixpoint covered (n : nat) (b : Bounds.t) (p : Point.t) : bool :=
  Bounds.Contains b p &&
  match n with
  | O => true
  | S n =>
      let '(q0, q1, q2, q3) := quadrants b in
      covered n q0 p || covered n q1 p || covered n q2 p || covered n q3 p
  end.

(** Every node with children has them on the quadrants of its own
    rectangle. *)
Fixpoint layout (n : Node) : Prop :=
  match n with
  | Leaf _ _ _ => True
  | Inner b _ _ c0 c1 c2 c3 =>
      (Bounds c0, Bounds c1, Bounds c2, Bounds c3) = quadrants b
      /\ layout c0 /\ layout c1 /\ layout c2 /\ layout c3
  end.

(** [P] holds of each of four children. *)
Definition all4 (P : Node -> Prop) (cs : quad) : Prop :=
  let '(c0, c1, c2, c3) := cs in P c0 /\ P c1 /\ P c2 /\ P c3.

(** ** Data of the worked examples *)

Section ExampleData.

(** The decimal constants are read as Go reads them, as the nearest
    binary64 value. *)
Set Warnings "-inexact-float".

Local Open Scope float_scope.

Definition hundred : Bounds.t := Bounds.mk 0 0 100 100.

(** Four points in a tree of capacity 2: the root and its NW child get
    subdivided. *)
Definition four_points : list Point.t :=
  [Point.mk 10 10 (AString "p1"); Point.mk 20 20 (AString "p2");
   Point.mk 30 30 (AString "p3"); Point.mk 40 40 (AString "p4")].

Definition split_root : Node :=
  Inner hundred [] 2
    (Inner (Bounds.mk 0 0 50 50) [] 2
       (Leaf (Bounds.mk 0 0 25 25)
          [Point.mk 10 10 (AString "p1"); Point.mk 20 20 (AString "p2")] 2)
       (Leaf (Bounds.mk 25 0 25 25) [] 2)
       (Leaf (Bounds.mk 0 25 25 25) [] 2)
       (Leaf (Bounds.mk 25 25 25 25)
          [Point.mk 30 30 (AString "p3"); Point.mk 40 40 (AString "p4")] 2))
    (Leaf (Bounds.mk 50 0 50 50) [] 2)
    (Leaf (Bounds.mk 0 50 50 50) [] 2)
    (Leaf (Bounds.mk 50 50 50 50) [] 2).

(** The NW child of [split_root]. *)
Definition split_nw : Node :=
  Inner (Bounds.mk 0 0 50 50) [] 2
    (Leaf (Bounds.mk 0 0 25 25)
       [Point.mk 10 10 (AString "p1"); Point.mk 20 20 (AString "p2")] 2)
    (Leaf (Bounds.mk 25 0 25 25) [] 2)
    (Leaf (Bounds.mk 0 25 25 25) [] 2)
    (Leaf (Bounds.mk 25 25 25 25)
       [Point.mk 30 30 (AString "p3"); Point.mk 40 40 (AString "p4")] 2).

(** The tree after the first three of [four_points]: the third point,
    (30, 30), subdivided the root and then its NW child. *)
Definition three_root : Node :=
  Inner hundred [] 2
    (Inner (Bounds.mk 0 0 50 50) [] 2
       (Leaf (Bounds.mk 0 0 25 25)
          [Point.mk 10 10 (AString "p1"); Point.mk 20 20 (AString "p2")] 2)
       (Leaf (Bounds.mk 25 0 25 25) [] 2)
       (Leaf (Bounds.mk 0 25 25 25) [] 2)
       (Leaf (Bounds.mk 25 25 25 25) [Point.mk 30 30 (AString "p3")] 2))
    (Leaf (Bounds.mk 50 0 50 50) [] 2)
    (Leaf (Bounds.mk 0 50 50 50) [] 2)
    (Leaf (Bounds.mk 50 50 50 50) [] 2).

Definition three_tree : QuadTree := mkQuadTree (Some three_root).

(** A full leaf with the first two of [four_points] and what
    [SubDivide] makes of it. *)
Definition two_leaf : Node := Leaf hundred (take 2 four_points) 2.

Definition two_split : Node :=
  Inner hundred [] 2
    (Leaf (Bounds.mk 0 0 50 50) (take 2 four_points) 2)
    (Leaf (Bounds.mk 50 0 50 50) [] 2)
    (Leaf (Bounds.mk 0 50 50 50) [] 2)
    (Leaf (Bounds.mk 50 50 50 50) [] 2).

(** One point stored; a removal aimed outside the root's rectangle. *)
Definition single_tree : QuadTree :=
  mkQuadTree (Some (Leaf hundred [Point.mk 50 50 (AString "v")] 4)).

(** Two points at (5, 5) and a third elsewhere. *)
Definition twins : list Point.t :=
  [Point.mk 5 5 (AString "a"); Point.mk 5 5 (AString "b");
   Point.mk 7 7 (AString "c")].

Definition twin_tree : QuadTree := mkQuadTree (Some (Leaf hundred twins 4)).

(** The tree of the distance example: (3,4) and (4,3) at distance 5 from
    the origin, (6,8) at distance 10. *)
Definition ranked_root : Node :=
  Leaf (Bounds.mk 0 0 200 200)
    [Point.mk 3 4 (AString "a"); Point.mk 4 3 (AString "b");
     Point.mk 6 8 (AString "c")] 4.

(** A tree that stores one point, queried from far outside. *)
Definition far_tree : QuadTree :=
  mkQuadTree (Some (Leaf hundred [Point.mk 10 10 (AString "p1")] 4)).

(** A rectangle from 0.3 with width 0.7, a point on its east edge and a
    point in its middle. *)
Definition edge_bounds : Bounds.t := Bounds.mk 0.3 0 0.7 1.
Definition edge_point : Point.t := Point.mk 1 0.5 (AString "edge").
Definition mid_point : Point.t := Point.mk 0.5 0.5 (AString "mid").

(** Two points with the same coordinates and the tree of capacity 1 that
    stores the first. *)
Definition depot_a : Point.t := Point.mk 0 0 (AString "a").
Definition depot_b : Point.t := Point.mk 0 0 (AString "b").
Definition depot_tree : QuadTree := mkQuadTree (Some (Leaf hundred [depot_a] 1)).

(** A rectangle whose NW quarter is [edge_bounds], a point on the east
    edge of that quarter, a point in the SW quarter and the place it is
    moved to. *)
Definition wide_bounds : Bounds.t := Bounds.mk 0.3 0 1.4 2.
Definition bystander : Point.t := Point.mk 1 0.5 (AString "q").
Definition old_point : Point.t := Point.mk 0.5 1.5 (AString "o").
Definition new_point : Point.t := Point.mk 0.5 0.5 (AString "n").

(** [mid_point]'s coordinates under another label. *)
Definition mid_relabelled : Point.t := Point.mk 0.5 0.5 (AString "other").

(** Three entries in ascending distance, the first two at the same
    distance, and the three with the farthest first. *)
Definition ascending : list PointWithDistance.t :=
  [PointWithDistance.mk (Point.mk 3 4 (AString "a")) 5;
   PointWithDistance.mk (Point.mk 4 3 (AString "b")) 5;
   PointWithDistance.mk (Point.mk 6 8 (AString "c")) 10].

Definition shuffled : list PointWithDistance.t :=
  [PointWithDistance.mk (Point.mk 6 8 (AString "c")) 10;
   PointWithDistance.mk (Point.mk 3 4 (AString "a")) 5;
   PointWithDistance.mk (Point.mk 4 3 (AString "b")) 5].

End ExampleData.

(** * Properties *)

(** ** Order facts of binary64 comparison *)

Module F64Facts.

Local Open Scope float_scope.

Local Ltac fold_poscmp :=
  change (Pos.compare_cont Eq) with Pos.compare in *; intros.

Lemma SFleb_trans (a b c : spec_float) :
  SFleb a b = true -> SFleb b c = true -> SFleb a c = true.
Proof.
  unfold SFleb, SFcompare.
  destruct a as [[]|[]| |[] ma ea], b as [[]|[]| |[] mb eb],
           c as [[]|[]| |[] mc ec]; simpl; try easy;
    fold_poscmp;
    destruct (Z.compare_spec ea eb), (Z.compare_spec eb ec),
             (Z.compare_spec ea ec); simpl; try easy; try lia;
    destruct (Pos.compare_spec ma mb), (Pos.compare_spec mb mc),
             (Pos.compare_spec ma mc); simpl; try easy; try lia.
Qed.

Lemma SFleb_ltb_flip (a b : spec_float) :
  SFleb a b = true -> SFltb b a = false.
Proof.
  unfold SFleb, SFltb, SFcompare.
  destruct a as [[]|[]| |[] ma ea], b as [[]|[]| |[] mb eb];
    simpl; try easy;
    fold_poscmp;
    destruct (Z.compare_spec ea eb), (Z.compare_spec eb ea);
    simpl; try easy; try lia;
    destruct (Pos.compare_spec ma mb), (Pos.compare_spec mb ma);
    simpl; try easy; try lia.
Qed.

Lemma SFleb_total (a b : spec_float) :
  SFeqb a a = true -> SFeqb b b = true ->
  SFltb a b = false -> SFleb b a = true.
Proof.
  unfold SFleb, SFltb, SFeqb, SFcompare.
  destruct a as [[]|[]| |[] ma ea], b as [[]|[]| |[] mb eb];
    simpl; try easy; intros _ _;
    fold_poscmp;
    destruct (Z.compare_spec ea eb), (Z.compare_spec eb ea);
    simpl; try easy; try lia;
    destruct (Pos.compare_spec ma mb), (Pos.compare_spec mb ma);
    simpl; try easy; try lia.
Qed.

Lemma SFeqb_leb_l (a b c : spec_float) :
  SFeqb a b = true -> SFleb a c = SFleb b c.
Proof.
  unfold SFleb, SFeqb, SFcompare.
  destruct a as [[]|[]| |[] ma ea], b as [[]|[]| |[] mb eb],
           c as [[]|[]| |[] mc ec]; simpl; try easy;
    fold_poscmp;
    destruct (Z.compare_spec ea eb); simpl; try easy;
    destruct (Pos.compare_spec ma mb); simpl; try easy;
    subst; reflexivity.
Qed.

Lemma SFeqb_leb_r (a b c : spec_float) :
  SFeqb a b = true -> SFleb c a = SFleb c b.
Proof.
  unfold SFleb, SFeqb, SFcompare.
  destruct a as [[]|[]| |[] ma ea], b as [[]|[]| |[] mb eb],
           c as [[]|[]| |[] mc ec]; simpl; try easy;
    fold_poscmp;
    destruct (Z.compare_spec ea eb); simpl; try easy;
    destruct (Pos.compare_spec ma mb); simpl; try easy;
    subst; reflexivity.
Qed.

Lemma SFltb_leb (a b : spec_float) : SFltb a b = true -> SFleb a b = true.
Proof.
  unfold SFleb, SFltb. destruct (SFcompare a b) as [[]|]; easy.
Qed.

Lemma SFltb_eqb_false (k x d : spec_float) :
  SFltb k x = true -> SFeqb k d = true -> SFeqb x d = false.
Proof.
  unfold SFltb, SFeqb, SFcompare.
  destruct k as [[]|[]| |[] mk ek], x as [[]|[]| |[] mx ex],
           d as [[]|[]| |[] md ed]; simpl; try easy;
    fold_poscmp;
    destruct (Z.compare_spec ek ex), (Z.compare_spec ek ed),
             (Z.compare_spec ex ed); simpl; try easy; try lia;
    destruct (Pos.compare_spec mk mx), (Pos.compare_spec mk md),
             (Pos.compare_spec mx md); simpl; try easy; try lia.
Qed.

Lemma SFleb_infinity (m : spec_float) :
  SFleb (S754_infinity false) m = true -> SFleb m (S754_infinity false) = true.
Proof. destruct m as [[]|[]| |[] mm em]; easy. Qed.

(** [<=] is transitive (a NaN operand makes a premise false). *)
Lemma leb_trans (a b c : float) :
  (a <=? b) = true -> (b <=? c) = true -> (a <=? c) = true.
Proof. rewrite !FloatAxioms.leb_spec. apply SFleb_trans. Qed.

(** [a <= b] excludes [a > b]. *)
Lemma leb_not_gtb (a b : float) : (a <=? b) = true -> F64.gtb a b = false.
Proof.
  unfold F64.gtb. rewrite FloatAxioms.leb_spec, FloatAxioms.ltb_spec.
  apply SFleb_ltb_flip.
Qed.

(** On operands that are not NaN, [not (a < b)] is [b <= a]. *)
Lemma not_ltb_leb (a b : float) :
  is_nan a = false -> is_nan b = false -> (a <? b) = false -> (b <=? a) = true.
Proof.
  unfold is_nan. intros Ha%negb_false_iff Hb%negb_false_iff.
  rewrite FloatAxioms.eqb_spec in Ha, Hb.
  rewrite FloatAxioms.ltb_spec, FloatAxioms.leb_spec.
  now apply SFleb_total.
Qed.

(** Go's [==] on floats identifies values that compare alike. *)
Lemma eqb_leb_l (a b c : float) : (a =? b) = true -> (a <=? c) = (b <=? c).
Proof. rewrite FloatAxioms.eqb_spec, !FloatAxioms.leb_spec. apply SFeqb_leb_l. Qed.

Lemma eqb_leb_r (a b c : float) : (a =? b) = true -> (c <=? a) = (c <=? b).
Proof. rewrite FloatAxioms.eqb_spec, !FloatAxioms.leb_spec. apply SFeqb_leb_r. Qed.

(** [a < b] gives [a <= b]. *)
Lemma ltb_leb (a b : float) : (a <? b) = true -> (a <=? b) = true.
Proof. rewrite FloatAxioms.ltb_spec, FloatAxioms.leb_spec. apply SFltb_leb. Qed.

(** A value strictly above [k] is not [==] to what [k] is [==] to. *)
Lemma ltb_eqb_false (k x d : float) :
  (k <? x) = true -> (k =? d) = true -> (x =? d) = false.
Proof.
  rewrite FloatAxioms.ltb_spec, !FloatAxioms.eqb_spec. apply SFltb_eqb_false.
Qed.

(** Only [+Inf] is at or above [+Inf]. *)
Lemma infinity_leb (m : float) :
  (infinity <=? m) = true -> (m <=? infinity) = true.
Proof.
  rewrite !FloatAxioms.leb_spec.
  change (Prim2SF infinity) with (S754_infinity false).
  apply SFleb_infinity.
Qed.

End F64Facts.

(** ** Stored points and the states the public operations reach *)

Arguments first_accepting : simpl never.

(** ** Rectangles *)

(** C9. [Intersects] gives the same answer with its two rectangles
    exchanged; this holds for all rectangles, whatever the sign of their
    widths and heights. *)
Theorem Intersects_symmetric (a b : Bounds.t) :
  Bounds.Intersects a b = Bounds.Intersects b a.
Proof.
  unfold Bounds.Intersects, F64.gtb.
  destruct (Bounds.X b + Bounds.Width b <? Bounds.X a)%float,
           (Bounds.X a + Bounds.Width a <? Bounds.X b)%float,
           (Bounds.Y b + Bounds.Height b <? Bounds.Y a)%float,
           (Bounds.Y a + Bounds.Height a <? Bounds.Y b)%float; reflexivity.
Qed.

(** A point inside two rectangles makes them intersect. *)
Lemma Contains_both_Intersects (a b : Bounds.t) (p : Point.t) :
  Bounds.Contains a p = true -> Bounds.Contains b p = true ->
  Bounds.Intersects a b = true.
Proof.
  unfold Bounds.Contains, Bounds.Intersects, F64.geb.
  rewrite !andb_true_iff. intros [[[Ha1 Ha2] Ha3] Ha4] [[[Hb1 Hb2] Hb3] Hb4].
  rewrite (F64Facts.leb_not_gtb _ _ (F64Facts.leb_trans _ _ _ Ha1 Hb2)).
  rewrite (F64Facts.leb_not_gtb _ _ (F64Facts.leb_trans _ _ _ Ha4 Hb3)).
  pose proof (F64Facts.leb_not_gtb _ _ (F64Facts.leb_trans _ _ _ Hb1 Ha2)) as H1.
  pose proof (F64Facts.leb_not_gtb _ _ (F64Facts.leb_trans _ _ _ Hb4 Ha3)) as H2.
  unfold F64.gtb in H1, H2. rewrite H1, H2. reflexivity.
Qed.

(** Points with [==] coordinates are inside the same rectangles. *)
Lemma Contains_same_xy (b : Bounds.t) (e p : Point.t) :
  same_xy e p = true -> Bounds.Contains b e = Bounds.Contains b p.
Proof.
  unfold same_xy, Bounds.Contains, F64.geb. rewrite andb_true_iff.
  intros [Hx Hy].
  rewrite (F64Facts.eqb_leb_r _ _ _ Hx), (F64Facts.eqb_leb_l _ _ _ Hx).
  rewrite (F64Facts.eqb_leb_r _ _ _ Hy), (F64Facts.eqb_leb_l _ _ _ Hy).
  reflexivity.
Qed.

(** ** Removal *)

Lemma filter_length_Permutation {A} (f : A -> bool) (l l' : list A) :
  l ≡ₚ l' -> length (List.filter f l) = length (List.filter f l').
Proof.
  induction 1; simpl; repeat destruct (f _); simpl; congruence.
Qed.

Lemma find_match_None (point : Point.t) (ps : list Point.t) (i : nat) :
  Forall (fun e => same_xy e point = false) ps ->
  find_match point ps i = None.
Proof.
  intros H. revert i. induction H as [|e ps He _ IH]; intros i; simpl.
  - reflexivity.
  - rewrite He. apply IH.
Qed.

Lemma find_match_Some (point : Point.t) (ps : list Point.t) (i j : nat) :
  find_match point ps i = Some j ->
  exists l1 e l2, ps = l1 ++ e :: l2 /\ j = (i + length l1)%nat
                  /\ same_xy e point = true.
Proof.
  revert i. induction ps as [|e ps IH]; intros i; simpl; [discriminate|].
  destruct (same_xy e point) eqn:He.
  - intros [= <-]. exists [], e, ps. simpl. split_and!; auto with lia.
  - intros (l1 & e' & l2 & -> & -> & He')%IH.
    exists (e :: l1), e', l2. simpl. split_and!; auto with lia.
Qed.

(** Overwriting slot [i] with the last element and dropping the last slot
    removes exactly the element that was in slot [i]. *)
Lemma swap_remove_Permutation (l1 l2 : list Point.t) (e : Point.t) :
  l1 ++ e :: l2 ≡ₚ e :: swap_remove (length l1) (l1 ++ e :: l2).
Proof.
  unfold swap_remove.
  destruct (List.exists_last (l:=e :: l2)) as (l2' & lst & Hl); [discriminate|].
  rewrite Hl.
  replace (length (l1 ++ l2' ++ [lst]) - 1)%nat with (length (l1 ++ l2'))
    by (rewrite !length_app; simpl; lia).
  rewrite (app_assoc l1 l2' [lst]), list_lookup_middle by reflexivity.
  rewrite <- (app_assoc l1 l2' [lst]), <- Hl.
  rewrite insert_app_r_alt, Nat.sub_diag by lia. simpl.
  destruct l2' as [|x l2']; simpl in Hl.
  - injection Hl as -> ->. rewrite length_app, Nat.add_0_r.
    rewrite take_app_length' by (rewrite ?length_app; simpl; lia).
    symmetry. apply Permutation_cons_append.
  - injection Hl as -> ->.
    change (l1 ++ lst :: l2' ++ [lst]) with (l1 ++ (lst :: l2') ++ [lst]).
    rewrite (app_assoc l1 (lst :: l2') [lst]).
    rewrite take_app_length' by (rewrite !length_app; simpl; lia).
    rewrite <- (Permutation_middle l1 (l2' ++ [lst]) x).
    apply Permutation_skip, Permutation_app_head.
    symmetry. apply Permutation_cons_append.
Qed.

Lemma swap_remove_length (i : nat) (ps : list Point.t) :
  (length (swap_remove i ps) <= length ps)%nat.
Proof.
  unfold swap_remove. destruct (ps !! _); [|lia].
  rewrite length_take, length_insert. lia.
Qed.

(** A call that reports failure has changed nothing. *)
Lemma RemoveNode_false (n n' : Node) (point : Point.t) :
  RemoveNode n point = (n', false) -> n' = n.
Proof.
  revert n'. induction n as [b ps cap|b ps cap c0 IH0 c1 IH1 c2 IH2 c3 IH3];
    intros n'; simpl; destruct (negb _); try (intros [= <-]; reflexivity).
  - destruct (find_match point ps 0); intros [= <-]; reflexivity.
  - destruct (RemoveNode c0 point) as [c0' []]; [intros [=]|].
    destruct (RemoveNode c1 point) as [c1' []]; [intros [=]|].
    destruct (RemoveNode c2 point) as [c2' []]; [intros [=]|].
    destruct (RemoveNode c3 point) as [c3' []]; [intros [=]|].
    intros [= <-].
    rewrite (IH0 c0'), (IH1 c1'), (IH2 c2'), (IH3 c3'); reflexivity.
Qed.

(** A call that reports success has taken out one stored point, one whose
    coordinates are [==] to the argument's, and nothing else. *)
Lemma RemoveNode_true (n n' : Node) (point : Point.t) :
  RemoveNode n point = (n', true) ->
  exists e, same_xy e point = true /\ stored n ≡ₚ e :: stored n'.
Proof.
  revert n'. induction n as [b ps cap|b ps cap c0 IH0 c1 IH1 c2 IH2 c3 IH3];
    intros n'; simpl; (destruct (negb _); [intros [=]|]).
  - destruct (find_match point ps 0) as [i|] eqn:Hi; intros [= <-].
    apply find_match_Some in Hi as (l1 & e & l2 & -> & -> & He).
    exists e. split; [exact He|]. simpl. apply swap_remove_Permutation.
  - destruct (RemoveNode c0 point) as [c0' []] eqn:H0.
    { intros [= <-]. destruct (IH0 _ eq_refl) as (e & He & Hp).
      exists e. split; [exact He|]. simpl. rewrite Hp. reflexivity. }
    apply RemoveNode_false in H0 as ->.
    destruct (RemoveNode c1 point) as [c1' []] eqn:H1.
    { intros [= <-]. destruct (IH1 _ eq_refl) as (e & He & Hp).
      exists e. split; [exact He|]. simpl. rewrite Hp. simpl.
      rewrite <- !Permutation_middle. reflexivity. }
    apply RemoveNode_false in H1 as ->.
    destruct (RemoveNode c2 point) as [c2' []] eqn:H2.
    { intros [= <-]. destruct (IH2 _ eq_refl) as (e & He & Hp).
      exists e. split; [exact He|]. simpl. rewrite Hp. simpl.
      rewrite <- !Permutation_middle. reflexivity. }
    apply RemoveNode_false in H2 as ->.
    destruct (RemoveNode c3 point) as [c3' []] eqn:H3; intros [= <-].
    destruct (IH3 _ eq_refl) as (e & He & Hp).
    exists e. split; [exact He|]. simpl. rewrite Hp.
    rewrite <- !Permutation_middle. reflexivity.
Qed.

(** Without a stored point of matching coordinates the call fails. *)
Lemma RemoveNode_no_match (n : Node) (point : Point.t) :
  Forall (fun e => same_xy e point = false) (stored n) ->
  RemoveNode n point = (n, false).
Proof.
  induction n as [b ps cap|b ps cap c0 IH0 c1 IH1 c2 IH2 c3 IH3];
    simpl; intros H; destruct (negb _); try reflexivity.
  - rewrite find_match_None by exact H. reflexivity.
  - rewrite !Forall_app in H. destruct H as (H0 & H1 & H2 & H3).
    rewrite IH0, IH1, IH2, IH3 by assumption. reflexivity.
Qed.

(** ** Invariants of the tree and what an insertion does to them *)

Lemma cap_ok_Capacity (c : Z) (n : Node) : cap_ok c n -> Capacity n = c.
Proof. destruct n; simpl; tauto. Qed.

Lemma touched_refl (ps : list Point.t) (n : Node) : touched ps n n.
Proof. unfold touched. split_and!; auto. Qed.

Lemma touched_trans (ps1 ps2 : list Point.t) (n1 n2 n3 : Node) :
  touched ps1 n1 n2 -> touched ps2 n2 n3 -> touched (ps1 ++ ps2) n1 n3.
Proof.
  intros (Hb1 & Hc1 & Hw1 & Hs1) (Hb2 & Hc2 & Hw2 & Hs2).
  unfold touched. split_and!; auto.
  - congruence.
  - intros q [Hq|[Hq Hin]]%Hs2.
    + destruct (Hs1 _ Hq) as [?|[? ?]]; [auto|].
      right. split; [apply elem_of_app; auto|assumption].
    + right. split; [apply elem_of_app; auto|congruence].
Qed.

Section Attempts.
Variable ins : Node -> Point.t -> option (Node * bool).
Hypothesis ins_touched :
  forall n p n' r, ins n p = Some (n', r) -> touched [p] n n'.

Lemma first_accepting_touched (cs cs' : quad) (p : Point.t) (r : bool) :
  first_accepting ins cs p = Some (cs', r) -> touched4 [p] cs cs'.
Proof using ins_touched.
  destruct cs as [[[c0 c1] c2] c3], cs' as [[[c0' c1'] c2'] c3'].
  unfold first_accepting. simpl.
  destruct (ins c0 p) as [[d0 []]|] eqn:H0; simpl; try discriminate.
  { intros [= <- <- <- <- <-]. apply ins_touched in H0.
    split_and!; auto using touched_refl. }
  destruct (ins c1 p) as [[d1 []]|] eqn:H1; simpl; try discriminate.
  { intros [= <- <- <- <- <-]. apply ins_touched in H0, H1.
    split_and!; auto using touched_refl. }
  destruct (ins c2 p) as [[d2 []]|] eqn:H2; simpl; try discriminate.
  { intros [= <- <- <- <- <-]. apply ins_touched in H0, H1, H2.
    split_and!; auto using touched_refl. }
  destruct (ins c3 p) as [[d3 r3]|] eqn:H3; simpl; try discriminate.
  intros [= <- <- <- <- <-]. apply ins_touched in H0, H1, H2, H3.
  split_and!; auto.
Qed.

Lemma redistribute_touched (ps : list Point.t) (cs cs' : quad) :
  redistribute ins ps cs = Some cs' -> touched4 ps cs cs'.
Proof using ins_touched.
  revert cs. induction ps as [|p ps IH]; intros cs; simpl.
  - intros [= <-]. destruct cs as [[[c0 c1] c2] c3]. simpl.
    split_and!; apply touched_refl.
  - destruct (first_accepting ins cs p) as [[cs1 r]|] eqn:H1;
      simpl; [|discriminate].
    intros H2%IH. apply first_accepting_touched in H1.
    destruct cs as [[[c0 c1] c2] c3], cs1 as [[[d0 d1] d2] d3],
             cs' as [[[e0 e1] e2] e3]. simpl in *.
    destruct H1 as (?&?&?&?), H2 as (?&?&?&?).
    split_and!; eapply (touched_trans [p] ps); eassumption.
Qed.
End Attempts.

Lemma within_stored (n : Node) (q : Point.t) :
  within n -> q ∈ stored n -> Bounds.Contains (Bounds n) q = true.
Proof.
  intros Hw Hq. destruct n; simpl in Hw; destruct Hw as [Hw _];
    rewrite Forall_forall in Hw; auto.
Qed.

(** A node with children, assembled from what became of its parts. *)
Lemma touched_assemble (pts : list Point.t) (n : Node) (ps' : list Point.t)
    (e0 e1 e2 e3 : Node) :
  (forall c, cap_ok c n ->
     Capacity n = c /\ ps' = [] /\
     cap_ok c e0 /\ cap_ok c e1 /\ cap_ok c e2 /\ cap_ok c e3) ->
  (within n -> within e0 /\ within e1 /\ within e2 /\ within e3) ->
  (forall q, q ∈ stored e0 ++ stored e1 ++ stored e2 ++ stored e3 ->
     q ∈ stored n \/ q ∈ pts) ->
  (forall q, q ∈ pts -> Bounds.Contains (Bounds n) q = true) ->
  touched pts n (Inner (Bounds n) ps' (Capacity n) e0 e1 e2 e3).
Proof.
  intros Hc Hw Hs Hp. unfold touched. split_and!.
  - reflexivity.
  - intros c (-> & -> & ?)%Hc. simpl. auto.
  - intros Hn. simpl. split; [|auto].
    apply Forall_forall. intros q [?|?]%Hs; auto using within_stored.
  - intros q [?|?]%Hs; auto.
Qed.

Lemma fresh_children_facts (b : Bounds.t) (cap : Z) :
  let '(f0, f1, f2, f3) := fresh_children b cap in
  (stored f0 = [] /\ stored f1 = [] /\ stored f2 = [] /\ stored f3 = [])
  /\ (within f0 /\ within f1 /\ within f2 /\ within f3)
  /\ (cap_ok cap f0 /\ cap_ok cap f1 /\ cap_ok cap f2 /\ cap_ok cap f3).
Proof.
  unfold fresh_children. simpl. split_and!; auto using Forall_nil; lia.
Qed.

(** Whatever an [InsertNode] call returns, it has only [touched] the node. *)
Lemma InsertNode_touched (fuel : nat) :
  forall n p n' r, InsertNode fuel n p = Some (n', r) -> touched [p] n n'.
Proof.
  induction fuel as [|fuel IH]; intros n p n' r; simpl; [discriminate|].
  destruct (Bounds.Contains (Bounds n) p) eqn:Hin; simpl;
    [|intros [= <- <-]; apply touched_refl].
  assert (Hp : forall q, q ∈ [p] -> Bounds.Contains (Bounds n) q = true)
    by (intros q ->%list_elem_of_singleton; exact Hin).
  destruct n as [b ps cap|b ps cap c0 c1 c2 c3].
  - destruct (Z.of_nat (length ps) <? cap)%Z eqn:Hroom.
    + (* room in the leaf *)
      intros [= <- <-]. apply Z.ltb_lt in Hroom.
      unfold touched. simpl. split_and!.
      * reflexivity.
      * intros c [-> Hlen]. split; [reflexivity|].
        rewrite length_app. simpl. lia.
      * intros [Hw _]. split; [|exact I].
        apply Forall_app. split; [exact Hw|].
        apply Forall_singleton. exact Hin.
      * intros q [?|Hq]%elem_of_app; [auto|].
        apply list_elem_of_singleton in Hq as ->.
        right. split; [apply list_elem_of_here|exact Hin].
    + (* a full leaf is subdivided first *)
      unfold SubDivide_with. simpl.
      destruct (redistribute _ ps _) as [[[[d0 d1] d2] d3]|] eqn:Hre;
        simpl; [|discriminate].
      destruct (first_accepting (InsertNode fuel) (d0, d1, d2, d3) p)
        as [[[[[e0 e1] e2] e3] r']|] eqn:Hfa; simpl; [|discriminate].
      intros [= <- <-].
      apply (redistribute_touched _ IH) in Hre.
      apply (first_accepting_touched _ IH) in Hfa.
      pose proof (fresh_children_facts b cap) as Hfresh.
      destruct (fresh_children b cap) as [[[f0 f1] f2] f3].
      destruct Hfresh as ((S0 & S1 & S2 & S3) & (W0 & W1 & W2 & W3) & Hcap).
      simpl in Hre, Hfa.
      destruct Hre as ((?&C0&V0&T0) & (?&C1&V1&T1) & (?&C2&V2&T2) & (?&C3&V3&T3)).
      destruct Hfa as ((?&C0'&V0'&T0') & (?&C1'&V1'&T1')
                       & (?&C2'&V2'&T2') & (?&C3'&V3'&T3')).
      apply (touched_assemble [p] (Leaf b ps cap) [] e0 e1 e2 e3); [| | |exact Hp].
      * intros c [-> Hlen]. simpl.
        destruct Hcap as (?&?&?&?). split_and!; auto.
      * intros _. split_and!; auto.
      * rewrite S0 in T0. rewrite S1 in T1. rewrite S2 in T2. rewrite S3 in T3.
        simpl. intros q Hq. rewrite !elem_of_app in Hq.
        destruct Hq as [Hq|[Hq|[Hq|Hq]]];
          [apply T0' in Hq as [Hq|[? _]]; [apply T0 in Hq|]
          |apply T1' in Hq as [Hq|[? _]]; [apply T1 in Hq|]
          |apply T2' in Hq as [Hq|[? _]]; [apply T2 in Hq|]
          |apply T3' in Hq as [Hq|[? _]]; [apply T3 in Hq|]];
          try (right; assumption);
          (destruct Hq as [Hq|[Hq _]]; [inversion Hq|left; exact Hq]).
  - (* a node with children hands the point down *)
    destruct (first_accepting (InsertNode fuel) (c0, c1, c2, c3) p)
      as [[[[[e0 e1] e2] e3] r']|] eqn:Hfa; simpl; [|discriminate].
    intros [= <- <-].
    apply (first_accepting_touched _ IH) in Hfa. simpl in Hfa.
    destruct Hfa as ((?&C0'&V0'&T0') & (?&C1'&V1'&T1')
                     & (?&C2'&V2'&T2') & (?&C3'&V3'&T3')).
    apply (touched_assemble [p] (Inner b ps cap c0 c1 c2 c3) ps e0 e1 e2 e3);
      [| | |exact Hp].
    + intros c (-> & -> & ?&?&?&?). simpl. split_and!; auto.
    + intros (_ & ?&?&?&?). split_and!; auto.
    + simpl. intros q Hq. rewrite !elem_of_app in Hq.
      destruct Hq as [Hq|[Hq|[Hq|Hq]]];
        [apply T0' in Hq|apply T1' in Hq|apply T2' in Hq|apply T3' in Hq];
        (destruct Hq as [Hq|[Hq _]];
         [left; rewrite !elem_of_app; auto|right; exact Hq]).
Qed.

(** A removal adds nothing and keeps the invariants as well. *)
Lemma RemoveNode_touched (n : Node) (point : Point.t) :
  touched [] n (RemoveNode n point).1.
Proof.
  induction n as [b ps cap|b ps cap c0 IH0 c1 IH1 c2 IH2 c3 IH3]; simpl;
    (destruct (negb _); [apply touched_refl|]).
  - destruct (find_match point ps 0) as [i|] eqn:Hi; [|apply touched_refl].
    apply find_match_Some in Hi as (l1 & e & l2 & -> & -> & He). simpl.
    pose proof (swap_remove_Permutation l1 l2 e) as Hperm.
    pose proof (swap_remove_length (length l1) (l1 ++ e :: l2)) as Hlen.
    unfold touched. simpl. split_and!.
    + reflexivity.
    + intros c [-> ?]. split; [reflexivity|lia].
    + intros [Hw _]. split; [|exact I].
      rewrite Hperm in Hw. by apply Forall_cons in Hw as [_ Hw].
    + intros q Hq. left. rewrite Hperm. by apply list_elem_of_further.
  - assert (exists d0 d1 d2 d3,
      (let '(c0', r) := RemoveNode c0 point in
       if r then (Inner b ps cap c0' c1 c2 c3, true) else
       let '(c1', r) := RemoveNode c1 point in
       if r then (Inner b ps cap c0' c1' c2 c3, true) else
       let '(c2', r) := RemoveNode c2 point in
       if r then (Inner b ps cap c0' c1' c2' c3, true) else
       let '(c3', r) := RemoveNode c3 point in
       (Inner b ps cap c0' c1' c2' c3', r)).1 = Inner b ps cap d0 d1 d2 d3
      /\ touched [] c0 d0 /\ touched [] c1 d1
      /\ touched [] c2 d2 /\ touched [] c3 d3) as (d0 & d1 & d2 & d3 & -> & T).
    { destruct (RemoveNode c0 point) as [c0' []];
        [by eauto 10 using touched_refl|].
      destruct (RemoveNode c1 point) as [c1' []];
        [by eauto 10 using touched_refl|].
      destruct (RemoveNode c2 point) as [c2' []];
        [by eauto 10 using touched_refl|].
      destruct (RemoveNode c3 point) as [c3' r];
        by eauto 10 using touched_refl. }
    destruct T as ((?&C0&V0&T0) & (?&C1&V1&T1) & (?&C2&V2&T2) & (?&C3&V3&T3)).
    apply (touched_assemble [] (Inner b ps cap c0 c1 c2 c3) ps d0 d1 d2 d3).
    + intros c (-> & -> & ?&?&?&?). simpl. split_and!; auto.
    + intros (_ & ?&?&?&?). split_and!; auto.
    + simpl. intros q Hq. rewrite !elem_of_app in Hq.
      destruct Hq as [Hq|[Hq|[Hq|Hq]]];
        [apply T0 in Hq|apply T1 in Hq|apply T2 in Hq|apply T3 in Hq];
        (destruct Hq as [Hq|[Hq _]];
         [left; rewrite !elem_of_app; auto|right; exact Hq]).
    + intros q Hq. inversion Hq.
Qed.

Lemma touched_tree_ok (b : Bounds.t) (c : Z) (ps : list Point.t)
    (root root' : Node) :
  tree_ok b c (mkQuadTree (Some root)) -> touched ps root root' ->
  tree_ok b c (mkQuadTree (Some root')).
Proof.
  intros (? & [= <-] & Hb & Hw & Hc) (Hb' & Hc' & Hw' & _).
  exists root'. split_and!; auto. congruence.
Qed.

Lemma reachable_tree_ok (b : Bounds.t) (c : Z) (qt : QuadTree) :
  reachable b c qt -> tree_ok b c qt.
Proof.
  induction 1 as [|fuel qt p qt' r _ IH Hop|qt p qt' r _ IH Hop
                  |fuel qt p q qt' r _ IH Hop].
  - exists (Leaf b [] c). simpl. split_and!; auto using Forall_nil. lia.
  - destruct IH as (root & Hroot & IH). unfold QuadTree.Insert in Hop.
    rewrite Hroot in Hop.
    destruct (InsertNode fuel root p) as [[root' res]|] eqn:Hi; [|discriminate].
    injection Hop as <- <-. apply InsertNode_touched in Hi.
    eapply touched_tree_ok; [|exact Hi]. exists root. auto.
  - destruct IH as (root & Hroot & IH). unfold QuadTree.Remove in Hop.
    rewrite Hroot in Hop.
    pose proof (RemoveNode_touched root p) as Hr.
    destruct (RemoveNode root p) as [root' res]. injection Hop as <- <-.
    eapply touched_tree_ok; [|exact Hr]. exists root. auto.
  - destruct IH as (root & Hroot & IH). unfold QuadTree.Update in Hop.
    rewrite Hroot in Hop.
    assert (Hqt : tree_ok b c qt) by (exists root; auto).
    destruct (negb _); [by injection Hop as <- <-|].
    pose proof (RemoveNode_touched root p) as Hr.
    destruct (RemoveNode root p) as [root1 removed]. simpl in Hr.
    assert (H1 : tree_ok b c (mkQuadTree (Some root1))).
    { eapply touched_tree_ok; [|exact Hr]. exists root. auto. }
    destruct removed; [|by injection Hop as <- <-].
    destruct (InsertNode fuel root1 q) as [[root2 res]|] eqn:Hi2; [|discriminate].
    apply InsertNode_touched in Hi2.
    assert (H2 : tree_ok b c (mkQuadTree (Some root2)))
      by (eapply touched_tree_ok; eassumption).
    destruct res; [by injection Hop as <- <-|].
    destruct (InsertNode fuel root2 p) as [[root3 res]|] eqn:Hi3; [|discriminate].
    apply InsertNode_touched in Hi3. injection Hop as <- <-.
    eapply touched_tree_ok; eassumption.
Qed.

Lemma find_match_is_Some (point e : Point.t) (ps : list Point.t) (i : nat) :
  e ∈ ps -> same_xy e point = true -> is_Some (find_match point ps i).
Proof.
  intros He Hm. revert i. induction He as [e ps|e e' ps _ IH]; intros i; simpl.
  - rewrite Hm. eauto.
  - destruct (same_xy e' point); eauto.
Qed.

(** In a tree whose points lie inside the rectangles above them, a stored
    point with matching coordinates is found. *)
Lemma RemoveNode_finds (n : Node) (point e : Point.t) :
  within n -> e ∈ stored n -> same_xy e point = true ->
  (RemoveNode n point).2 = true.
Proof.
  intros Hw He Hm. induction n as [b ps cap|b ps cap c0 IH0 c1 IH1 c2 IH2 c3 IH3].
  - pose proof (within_stored _ e Hw He) as Hc. simpl in Hc.
    simpl. rewrite <- (Contains_same_xy _ _ _ Hm), Hc. simpl.
    simpl in He. destruct (find_match_is_Some point e ps 0 He Hm) as [i ->].
    reflexivity.
  - pose proof (within_stored _ e Hw He) as Hc. simpl in Hc.
    simpl. rewrite <- (Contains_same_xy _ _ _ Hm), Hc. simpl.
    destruct Hw as (_ & W0 & W1 & W2 & W3). simpl in He.
    rewrite !elem_of_app in He.
    destruct (RemoveNode c0 point) as [c0' []]; [reflexivity|].
    destruct (RemoveNode c1 point) as [c1' []]; [reflexivity|].
    destruct (RemoveNode c2 point) as [c2' []]; [reflexivity|].
    destruct (RemoveNode c3 point) as [c3' []]; [reflexivity|].
    simpl in *. destruct He as [He|[He|[He|He]]]; auto.
Qed.

(** ** The capacity rule *)

Lemma cap_ok_node_of (c : Z) (n t : Node) :
  cap_ok c t -> node_of n t -> cap_ok c n.
Proof.
  intros Ht Hn. induction Hn as [|b ps cap c0 c1 c2 c3 ch Hch _ IH]; [exact Ht|].
  destruct Ht as (_ & _ & H0 & H1 & H2 & H3). apply IH.
  rewrite !elem_of_cons in Hch.
  destruct Hch as [->|[->|[->|[->|Hch]]]]; try assumption. inversion Hch.
Qed.

(** C7. In a tree that was created with the capacity [capacity] and
    changed by any sequence of [Insert], [Remove] and [Update] calls,
    every node carries that capacity and every leaf holds at most that
    many points (for a capacity below 0, which no leaf can meet, every
    leaf is empty). *)
Theorem capacity_invariant (b : Bounds.t) (capacity : Z) (qt : QuadTree)
    (root n : Node) :
  reachable b capacity qt ->
  Root qt = Some root ->
  node_of n root ->
  Capacity n = capacity
  /\ forall b' ps cap, n = Leaf b' ps cap ->
       ((0 <= capacity)%Z -> (Z.of_nat (length ps) <= capacity)%Z)
       /\ ((capacity < 0)%Z -> ps = []).
Proof.
  intros (root' & Hroot & _ & _ & Hcap)%reachable_tree_ok Hr Hn.
  rewrite Hr in Hroot. injection Hroot as <-.
  pose proof (cap_ok_node_of _ _ _ Hcap Hn) as Hok.
  split; [by apply cap_ok_Capacity|].
  intros b' ps cap ->. destruct Hok as [_ Hlen]. split; [lia|].
  intros Hneg. destruct ps; [reflexivity|simpl in Hlen; lia].
Qed.

(** ** Failed and successful removals *)

(** C8. [Remove] returns false and leaves the tree as it was when the
    point is outside the root's rectangle or no stored point has [==]
    coordinates; and whenever [Remove] returns false the tree is as it
    was. *)
Theorem Remove_failure_unchanged (qt : QuadTree) (root : Node) (point : Point.t) :
  Root qt = Some root ->
  (Bounds.Contains (Bounds root) point = false
   \/ Forall (fun e => same_xy e point = false) (stored root) ->
   QuadTree.Remove qt point = Returns (qt, false))
  /\ (forall qt', QuadTree.Remove qt point = Returns (qt', false) -> qt' = qt).
Proof.
  destruct qt as [r]. simpl. intros ->. unfold QuadTree.Remove. simpl. split.
  - intros [Hout|Hnone].
    + destruct root; simpl in *; rewrite Hout; reflexivity.
    + rewrite RemoveNode_no_match by exact Hnone. reflexivity.
  - intros qt'. destruct (RemoveNode root point) as [root' res] eqn:Hr.
    intros [= <- ->]. apply RemoveNode_false in Hr as ->. reflexivity.
Qed.

(** C10. When two or more stored points have the coordinates of [point],
    one [Remove point] returns true and takes out exactly one stored
    point, one with those coordinates: the points stored before are the
    points stored afterwards plus that one, so every other point, the
    remaining duplicates included, is still there. *)
Theorem Remove_one_of_duplicates (b : Bounds.t) (capacity : Z) (qt : QuadTree)
    (point : Point.t) :
  reachable b capacity qt ->
  (2 <= length (List.filter (fun e => same_xy e point) (stored_in qt)))%nat ->
  exists qt' e,
    QuadTree.Remove qt point = Returns (qt', true)
    /\ same_xy e point = true
    /\ stored_in qt ≡ₚ e :: stored_in qt'
    /\ (1 <= length (List.filter (fun e => same_xy e point) (stored_in qt')))%nat.
Proof.
  intros (root & Hroot & _ & Hw & _)%reachable_tree_ok Hdup.
  unfold stored_in, QuadTree.Remove in *. rewrite Hroot in *.
  destruct (List.filter _ (stored root)) as [|e0 l] eqn:Hf; [simpl in Hdup; lia|].
  assert (He0 : In e0 (List.filter (fun e => same_xy e point) (stored root)))
    by (rewrite Hf; left; reflexivity).
  apply List.filter_In in He0 as [He0 Hm0]. apply list_elem_of_In in He0.
  pose proof (RemoveNode_finds root point e0 Hw He0 Hm0) as Hfound.
  destruct (RemoveNode root point) as [root' res] eqn:Hr.
  simpl in Hfound. subst res.
  destruct (RemoveNode_true _ _ _ Hr) as (e & He & Hperm).
  exists (mkQuadTree (Some root')), e. simpl. split_and!; auto.
  assert (Hlen : length (List.filter (fun e => same_xy e point) (stored root))
                 = length (List.filter (fun e => same_xy e point) (e :: stored root'))).
  { by apply filter_length_Permutation. }
  rewrite Hf in Hlen. simpl in Hlen, Hdup. rewrite He in Hlen. simpl in Hlen. lia.
Qed.

(** ** [sortByDistance] is a stable insertion sort *)

Lemma place_snoc (key pj : PointWithDistance.t) (a : list PointWithDistance.t) :
  place key (a ++ [pj]) =
  if F64.gtb (PointWithDistance.Distance pj) (PointWithDistance.Distance key)
  then place key a ++ [pj] else a ++ [pj; key].
Proof.
  unfold place. rewrite reverse_snoc. simpl.
  destruct (F64.gtb _ _).
  - by rewrite reverse_cons.
  - by rewrite !reverse_cons, reverse_involutive, <- app_assoc.
Qed.

Lemma place_length (key : PointWithDistance.t) (a : list PointWithDistance.t) :
  length (place key a) = S (length a).
Proof.
  induction a as [|pj a IH] using rev_ind; [reflexivity|].
  rewrite place_snoc. destruct (F64.gtb _ _); rewrite !length_app; simpl; lia.
Qed.

(** Where [key] lands: after the last slot that is not greater, the
    greater slots having moved up by one. *)
Lemma place_split (key : PointWithDistance.t) (a : list PointWithDistance.t) :
  exists a1 a2,
    a = a1 ++ a2 /\ place key a = a1 ++ key :: a2
    /\ Forall (fun x => F64.gtb (PointWithDistance.Distance x)
                                (PointWithDistance.Distance key) = true) a2
    /\ (forall a1' x, a1 = a1' ++ [x] ->
          F64.gtb (PointWithDistance.Distance x)
                  (PointWithDistance.Distance key) = false).
Proof.
  induction a as [|pj a IH] using rev_ind.
  - exists [], []. split_and!; auto. intros [] ? ?; discriminate.
  - rewrite place_snoc.
    destruct (F64.gtb (PointWithDistance.Distance pj)
                      (PointWithDistance.Distance key)) eqn:Hgt.
    + destruct IH as (a1 & a2 & -> & -> & Hall & Hlast).
      exists a1, (a2 ++ [pj]). split_and!; auto.
      * by rewrite app_assoc.
      * by rewrite <- app_assoc.
      * apply Forall_app. auto.
    + exists (a ++ [pj]), []. split_and!; auto.
      * by rewrite app_nil_r.
      * by rewrite <- app_assoc.
      * intros a1' x [_ <-]%app_inj_tail. exact Hgt.
Qed.

Lemma shift_down_place (a rest : list PointWithDistance.t)
    (x key : PointWithDistance.t) :
  shift_down (a ++ x :: rest) key (length a) = place key a ++ rest.
Proof.
  revert x rest. induction a as [|pj a IH] using rev_ind; intros x rest.
  - reflexivity.
  - rewrite length_app, Nat.add_1_r. simpl.
    rewrite <- app_assoc. simpl. rewrite list_lookup_middle by reflexivity.
    rewrite place_snoc. destruct (F64.gtb _ _).
    + rewrite insert_app_r_alt by lia.
      replace (S (length a) - length a)%nat with 1%nat by lia. simpl.
      rewrite IH. by rewrite <- app_assoc.
    + rewrite insert_app_r_alt by lia.
      replace (S (length a) - length a)%nat with 1%nat by lia. simpl.
      by rewrite <- app_assoc.
Qed.

Lemma sort_from_isort (a rest : list PointWithDistance.t) :
  sort_from (length rest) (length a) (a ++ rest) = isort_acc a rest.
Proof.
  revert a. induction rest as [|key rest IH]; intros a; simpl.
  - apply app_nil_r.
  - rewrite list_lookup_middle by reflexivity.
    rewrite shift_down_place, <- (place_length key). apply IH.
Qed.

(** The loops of [sortByDistance] compute the insertion sort. *)
Lemma sortByDistance_isort (points : list PointWithDistance.t) :
  sortByDistance points =
  match points with [] => [] | x :: rest => isort_acc [x] rest end.
Proof.
  unfold sortByDistance. destruct points as [|x rest]; [reflexivity|].
  simpl. rewrite Nat.sub_0_r. apply (sort_from_isort [x] rest).
Qed.

Lemma le_dist_trans (x y z : PointWithDistance.t) :
  le_dist x y -> le_dist y z -> le_dist x z.
Proof. apply F64Facts.leb_trans. Qed.

Lemma filter_all {A} (f : A -> bool) (l : list A) :
  Forall (fun x => f x = true) l -> List.filter f l = l.
Proof. induction 1 as [|x l Hx _ IH]; simpl; [|rewrite Hx]; congruence. Qed.

Lemma filter_none {A} (f : A -> bool) (l : list A) :
  Forall (fun x => f x = false) l -> List.filter f l = [].
Proof. induction 1 as [|x l Hx _ IH]; simpl; [|rewrite Hx]; auto. Qed.

Lemma place_Permutation (key : PointWithDistance.t) (a : list PointWithDistance.t) :
  place key a ≡ₚ key :: a.
Proof.
  destruct (place_split key a) as (a1 & a2 & -> & -> & _).
  symmetry. apply Permutation_middle.
Qed.

Lemma isort_acc_Permutation (a rest : list PointWithDistance.t) :
  isort_acc a rest ≡ₚ a ++ rest.
Proof.
  revert a. induction rest as [|key rest IH]; intros a; simpl.
  - by rewrite app_nil_r.
  - rewrite IH, place_Permutation. simpl. apply Permutation_middle.
Qed.

Lemma place_sorted (key : PointWithDistance.t) (a : list PointWithDistance.t) :
  is_nan (PointWithDistance.Distance key) = false -> no_nan a ->
  StronglySorted le_dist a -> StronglySorted le_dist (place key a).
Proof.
  intros Hkey Hnan Hs.
  destruct (place_split key a) as (a1 & a2 & -> & -> & Hall & Hlast).
  apply StronglySorted_app in Hs as (Hcross & Hs1 & Hs2).
  apply Forall_app in Hnan as [Hnan1 _].
  assert (Hkey_a2 : Forall (le_dist key) a2).
  { eapply Forall_impl; [exact Hall|]. intros x Hx. by apply F64Facts.ltb_leb. }
  assert (Ha1_key : forall x1, x1 ∈ a1 -> le_dist x1 key).
  { destruct a1 as [|y a1' _] using rev_ind; [intros x1 Hx1; inversion Hx1|].
    assert (Hy : le_dist y key).
    { apply F64Facts.not_ltb_leb; [exact Hkey| |exact (Hlast a1' y eq_refl)].
      apply Forall_app in Hnan1 as [_ Hy]. by inversion Hy. }
    apply StronglySorted_app in Hs1 as (Hc1 & _ & _).
    intros x1 [Hx1|Hx1]%elem_of_app.
    - apply (le_dist_trans x1 y key); [|exact Hy].
      apply Hc1; [exact Hx1|apply list_elem_of_here].
    - apply list_elem_of_singleton in Hx1 as ->. exact Hy. }
  apply StronglySorted_app_2.
  - intros x1 x2 Hx1 [->|Hx2]%elem_of_cons; auto.
  - exact Hs1.
  - by constructor.
Qed.

Lemma isort_acc_sorted (a rest : list PointWithDistance.t) :
  no_nan a -> no_nan rest ->
  StronglySorted le_dist a -> StronglySorted le_dist (isort_acc a rest).
Proof.
  revert a. induction rest as [|key rest IH]; intros a Ha Hrest Hs; simpl.
  - exact Hs.
  - apply Forall_cons in Hrest as [Hkey Hrest]. apply IH; [|exact Hrest|].
    + unfold no_nan. rewrite place_Permutation. by constructor.
    + by apply place_sorted.
Qed.

(** The slots at one distance keep their order: [key] goes behind the
    earlier slots that are at its distance. *)
Lemma place_stable (d : float) (key : PointWithDistance.t)
    (a : list PointWithDistance.t) :
  List.filter (at_dist d) (place key a) = List.filter (at_dist d) (a ++ [key]).
Proof.
  destruct (place_split key a) as (a1 & a2 & -> & -> & Hall & _).
  rewrite !List.filter_app. simpl.
  destruct (at_dist d key) eqn:Hk.
  - rewrite (filter_none (at_dist d) a2); [by rewrite app_nil_r|].
    eapply Forall_impl; [exact Hall|]. intros x Hx.
    by apply (F64Facts.ltb_eqb_false (PointWithDistance.Distance key)).
  - by rewrite !app_nil_r.
Qed.

Lemma isort_acc_stable (d : float) (a rest : list PointWithDistance.t) :
  List.filter (at_dist d) (isort_acc a rest) = List.filter (at_dist d) (a ++ rest).
Proof.
  revert a. induction rest as [|key rest IH]; intros a; simpl.
  - by rewrite app_nil_r.
  - rewrite IH, List.filter_app, place_stable, <- List.filter_app, <- app_assoc.
    reflexivity.
Qed.

Lemma chain_split {A} (R : A -> A -> Prop) (l1 l2 : list A) :
  chain R (l1 ++ l2) -> chain R l1 /\ chain R l2.
Proof.
  induction l1 as [|x [|z l1] IH]; simpl.
  - auto.
  - destruct l2; simpl; tauto.
  - intros [Hxz H]. destruct (IH H) as [H1 H2]. auto.
Qed.

Lemma chain_join {A} (R : A -> A -> Prop) (l1 l2 : list A) :
  chain R l1 -> chain R l2 ->
  (forall x y, last l1 = Some x -> head l2 = Some y -> R x y) ->
  chain R (l1 ++ l2).
Proof.
  induction l1 as [|x [|z l1] IH]; simpl.
  - auto.
  - intros _ H2 Hj. destruct l2 as [|y l2]; simpl; auto.
  - intros [Hxz H1] H2 Hj. split; [exact Hxz|]. apply IH; auto.
Qed.

Lemma chain_Sorted {A} (R : A -> A -> Prop) (l : list A) :
  chain R l -> Sorted R l.
Proof.
  induction l as [|x [|y l] IH]; simpl.
  - constructor.
  - repeat constructor.
  - intros [Hxy H]. constructor; [by apply IH|by constructor].
Qed.

Lemma place_chain (key : PointWithDistance.t) (a : list PointWithDistance.t) :
  chain no_descent a -> chain no_descent (place key a).
Proof.
  intros Ha. destruct (place_split key a) as (a1 & a2 & -> & -> & Hall & Hlast).
  apply chain_split in Ha as [H1 H2].
  apply chain_join; [exact H1| |].
  - destruct a2 as [|y a2]; [exact I|]. split; [|exact H2].
    apply Forall_cons in Hall as [Hy _]. unfold no_descent.
    apply (F64Facts.leb_not_gtb (PointWithDistance.Distance key)), F64Facts.ltb_leb, Hy.
  - intros x y Hx [= <-]. apply last_Some in Hx as [a1' ->].
    exact (Hlast a1' x eq_refl).
Qed.

Lemma isort_acc_chain (a rest : list PointWithDistance.t) :
  chain no_descent a -> chain no_descent (isort_acc a rest).
Proof.
  revert a. induction rest as [|key rest IH]; intros a Ha; simpl; [exact Ha|].
  by apply IH, place_chain.
Qed.

Lemma sortByDistance_chain (points : list PointWithDistance.t) :
  chain no_descent (sortByDistance points).
Proof.
  rewrite sortByDistance_isort. destruct points as [|x rest]; [exact I|].
  by apply isort_acc_chain.
Qed.

Lemma sortByDistance_Permutation (points : list PointWithDistance.t) :
  sortByDistance points ≡ₚ points.
Proof.
  rewrite sortByDistance_isort. destruct points as [|x rest]; [reflexivity|].
  apply (isort_acc_Permutation [x] rest).
Qed.

Lemma sortByDistance_sorted (points : list PointWithDistance.t) :
  no_nan points -> StronglySorted le_dist (sortByDistance points).
Proof.
  rewrite sortByDistance_isort. destruct points as [|x rest]; [constructor|].
  intros [Hx Hrest]%Forall_cons. apply isort_acc_sorted; auto.
  - by apply Forall_singleton.
  - repeat constructor.
Qed.

Lemma sortByDistance_stable (d : float) (points : list PointWithDistance.t) :
  List.filter (at_dist d) (sortByDistance points) = List.filter (at_dist d) points.
Proof.
  rewrite sortByDistance_isort. destruct points as [|x rest]; [reflexivity|].
  apply (isort_acc_stable d [x] rest).
Qed.

(** ** Range search *)

Lemma SearchTree_acc (n : Node) (area : Bounds.t) (acc : list Point.t) :
  SearchTree n area acc = acc ++ SearchTree n area [].
Proof.
  revert acc. induction n as [b ps cap|b ps cap c0 IH0 c1 IH1 c2 IH2 c3 IH3];
    intros acc; simpl; (destruct (negb _); [by rewrite app_nil_r|]).
  - reflexivity.
  - rewrite (IH3 (SearchTree c2 _ _)), (IH2 (SearchTree c1 _ _)),
      (IH1 (SearchTree c0 _ _)), (IH0 acc).
    rewrite (IH3 (SearchTree c2 _ _)), (IH2 (SearchTree c1 _ _)),
      (IH1 (SearchTree c0 _ [])).
    by rewrite <- !app_assoc.
Qed.

(** Whatever a search returns is a stored point inside the area. *)
Lemma SearchTree_stored (n : Node) (area : Bounds.t) (q : Point.t) :
  q ∈ SearchTree n area [] ->
  q ∈ stored n /\ Bounds.Contains area q = true.
Proof.
  induction n as [b ps cap|b ps cap c0 IH0 c1 IH1 c2 IH2 c3 IH3]; simpl;
    (destruct (negb _); [intros Hq; inversion Hq|]).
  - intros Hq%list_elem_of_In%List.filter_In. by rewrite list_elem_of_In.
  - rewrite (SearchTree_acc c3), (SearchTree_acc c2), (SearchTree_acc c1).
    rewrite !elem_of_app.
    intros [[[Hq|Hq]|Hq]|Hq];
      [apply IH0 in Hq|apply IH1 in Hq|apply IH2 in Hq|apply IH3 in Hq];
      destruct Hq as [Hq Hc]; (split; [|exact Hc]); auto.
Qed.

Lemma filter_sublist {A} (f : A -> bool) (l : list A) :
  List.filter f l `sublist_of` l.
Proof.
  induction l as [|x l IH]; simpl; [constructor|].
  destruct (f x); [by apply sublist_skip|by apply sublist_cons].
Qed.

(** A search returns stored points in storage order, none more often
    than it is stored. *)
Lemma SearchTree_sublist (n : Node) (area : Bounds.t) :
  SearchTree n area [] `sublist_of` stored n.
Proof.
  induction n as [b ps cap|b ps cap c0 IH0 c1 IH1 c2 IH2 c3 IH3]; simpl;
    (destruct (negb _); [apply sublist_nil_l|]).
  - apply filter_sublist.
  - rewrite (SearchTree_acc c3), (SearchTree_acc c2), (SearchTree_acc c1).
    rewrite <- !app_assoc. by repeat apply sublist_app.
Qed.

(** In a tree whose points lie inside the rectangles above them, a search
    returns every stored point inside the area, as often as it is stored
    and in storage order: the pruning loses nothing. *)
Lemma SearchTree_complete (n : Node) (area : Bounds.t) :
  within n ->
  SearchTree n area [] = List.filter (Bounds.Contains area) (stored n).
Proof.
  intros Hw.
  assert (Hprune : Bounds.Intersects (Bounds n) area = false ->
                   List.filter (Bounds.Contains area) (stored n) = []).
  { intros Hno. apply filter_none, Forall_forall. intros q Hq.
    destruct (Bounds.Contains area q) eqn:Hc; [|reflexivity].
    rewrite (Contains_both_Intersects _ _ q) in Hno;
      [discriminate|by apply within_stored|exact Hc]. }
  induction n as [b ps cap|b ps cap c0 IH0 c1 IH1 c2 IH2 c3 IH3]; simpl in *;
    (destruct (Bounds.Intersects _ area); simpl; [|by rewrite Hprune]).
  - reflexivity.
  - destruct Hw as (Hall & W0 & W1 & W2 & W3).
    rewrite (SearchTree_acc c3), (SearchTree_acc c2), (SearchTree_acc c1).
    rewrite !List.filter_app, <- !app_assoc.
    assert (Hsub : forall c, within c ->
              Bounds.Intersects (Bounds c) area = false ->
              List.filter (Bounds.Contains area) (stored c) = []).
    { intros c Hc Hno. apply filter_none, Forall_forall. intros q Hq.
      destruct (Bounds.Contains area q) eqn:Hcq; [|reflexivity].
      rewrite (Contains_both_Intersects _ _ q) in Hno;
        [discriminate|by apply within_stored|exact Hcq]. }
    rewrite IH0, IH1, IH2, IH3; auto.
Qed.

(** On every tree that the public operations produce, [Search] returns
    exactly the stored points that the area contains, each as often as it
    is stored.  What C1 asks beyond this is that insertions keep every
    point stored. *)
Lemma Search_stored_in_area (b : Bounds.t) (c : Z) (qt : QuadTree)
    (area : Bounds.t) :
  reachable b c qt ->
  QuadTree.Search qt area = List.filter (Bounds.Contains area) (stored_in qt).
Proof.
  intros (root & Hroot & _ & Hw & _)%reachable_tree_ok.
  unfold QuadTree.Search, stored_in. rewrite Hroot.
  by apply SearchTree_complete.
Qed.

(** ** The expanding-radius loop *)

(** Starting from 10, the 1021st doubling overflows to [+Inf]. *)
Lemma doubled_overflows : doubled 1021 10%float = infinity.
Proof. vm_compute. reflexivity. Qed.

(** The loop comes back once the radius can reach [+Inf]: at [+Inf] the
    guard fails or the test [searchRadius >= maxRadius] breaks. *)
Lemma probe_returns (root : Node) (target : Point.t) (k maxPoints : Z)
    (maxRadius : float) (d : nat) :
  forall fuel r results,
    doubled d r = infinity -> (d < fuel)%nat ->
    is_Some (probe fuel root target k maxPoints maxRadius r results).
Proof.
  induction d as [|d IH]; intros [|fuel] r results Hd Hf; try lia;
    simpl in Hd; cbn [probe].
  - subst r. destruct (infinity <=? maxRadius)%float eqn:Hle; [|eauto].
    destruct (k <=? _)%Z; [eauto|].
    unfold F64.geb. rewrite (F64Facts.infinity_leb _ Hle). eauto.
  - destruct (r <=? maxRadius)%float; [|eauto].
    destruct (k <=? _)%Z; [eauto|].
    destruct (F64.geb r maxRadius); [eauto|].
    destruct (maxPoints <? _)%Z; [eauto|].
    apply IH; [exact Hd|lia].
Qed.

(** What the loop leaves in [results]: the initial value when no probe
    ran, else the answer of one probe. *)
Lemma probe_result (root : Node) (target : Point.t) (k maxPoints : Z)
    (maxRadius : float) (fuel : nat) :
  forall r results res,
    probe fuel root target k maxPoints maxRadius r results = Some res ->
    res = results
    \/ exists r', res = SearchTree root (searchBounds target r') [].
Proof.
  induction fuel as [|fuel IH]; intros r results res; cbn [probe];
    [discriminate|].
  destruct (r <=? maxRadius)%float; [|intros [= <-]; auto].
  destruct (k <=? _)%Z; [intros [= <-]; eauto|].
  destruct (F64.geb r maxRadius); [intros [= <-]; eauto|].
  destruct (maxPoints <? _)%Z; [intros [= <-]; eauto|].
  intros [->|?]%IH; eauto.
Qed.

Lemma candidates_returns (fuel : nat) (root : Node) (target : Point.t) (k : Z) :
  (1022 <= fuel)%nat -> is_Some (candidates fuel root target k).
Proof.
  intros Hf. unfold candidates.
  apply (probe_returns _ _ _ _ _ 1021); [apply doubled_overflows|lia].
Qed.

Lemma candidates_stored (fuel : nat) (root : Node) (target : Point.t) (k : Z)
    (cands : list Point.t) :
  candidates fuel root target k = Some cands ->
  forall q, q ∈ cands -> q ∈ stored root.
Proof.
  unfold candidates. intros [->|[r' ->]]%probe_result q Hq.
  - inversion Hq.
  - by apply SearchTree_stored in Hq as [Hq _].
Qed.

Lemma candidates_sublist (fuel : nat) (root : Node) (target : Point.t) (k : Z)
    (cands : list Point.t) :
  candidates fuel root target k = Some cands ->
  cands `sublist_of` stored root.
Proof.
  unfold candidates. intros [->|[r' ->]]%probe_result.
  - apply sublist_nil_l.
  - apply SearchTree_sublist.
Qed.

Lemma int_wrap_small (z : Z) :
  (- 2 ^ 63 <= z < 2 ^ 63)%Z -> int_wrap z = z.
Proof. intros H. unfold int_wrap. rewrite Z.mod_small; lia. Qed.

(** A loop whose cap on the count is at least [k] ends with [k]
    candidates or more, or with the answer of its widest probe. *)
Lemma probe_widest (root : Node) (target : Point.t) (k maxPoints : Z)
    (ceiling : float) (fuel : nat) :
  (k <= maxPoints)%Z ->
  forall r results res,
    probe fuel root target k maxPoints ceiling r results = Some res ->
    (r <=? ceiling)%float = true ->
    (k <= Z.of_nat (length res))%Z
    \/ res = SearchTree root (searchBounds target (widest fuel ceiling r)) [].
Proof.
  intros Hcap. induction fuel as [|fuel IH]; intros r results res;
    cbn [probe widest]; [discriminate|].
  intros H Hr. rewrite Hr in H.
  destruct (k <=? _)%Z eqn:Hk in H;
    [injection H as <-; left; by apply Z.leb_le|].
  destruct (F64.geb r ceiling) eqn:Hge; [injection H as <-; by right|].
  destruct (maxPoints <? _)%Z eqn:Hmp in H;
    [apply Z.leb_gt in Hk; apply Z.ltb_lt in Hmp; lia|].
  destruct (r * 2 <=? ceiling)%float eqn:Hr2.
  - by apply IH in H.
  - destruct fuel as [|fuel']; [discriminate|].
    cbn [probe] in H. rewrite Hr2 in H. injection H as <-. by right.
Qed.

(** The widest probe does not depend on the fuel once the fuel covers
    the doublings up to [+Inf]. *)
Lemma widest_stable (ceiling : float) (d : nat) :
  forall r f1 f2,
    doubled d r = infinity -> (d < f1)%nat -> (d < f2)%nat ->
    widest f1 ceiling r = widest f2 ceiling r.
Proof.
  induction d as [|d IH]; intros r [|f1] [|f2] Hd H1 H2; try lia;
    simpl in Hd; cbn [widest].
  - subst r. destruct (F64.geb infinity ceiling) eqn:Hge; [reflexivity|].
    destruct (infinity * 2 <=? ceiling)%float eqn:Hle; [|reflexivity].
    apply F64Facts.infinity_leb in Hle. unfold F64.geb in Hge. congruence.
  - destruct (F64.geb r ceiling); [reflexivity|].
    destruct (r * 2 <=? ceiling)%float; [|reflexivity].
    apply IH; [exact Hd|lia|lia].
Qed.

(** ** Ranking the candidates *)

Lemma map_with_distance_Point (target : Point.t) (l : list Point.t) :
  map PointWithDistance.Point (map (with_distance target) l) = l.
Proof. induction l as [|p l IH]; simpl; congruence. Qed.

Lemma filter_with_distance (target : Point.t) (d : float) (l : list Point.t) :
  List.filter (at_dist d) (map (with_distance target) l)
  = map (with_distance target) (List.filter (pt_at target d) l).
Proof.
  induction l as [|p l IH]; simpl; [reflexivity|].
  change (at_dist d (with_distance target p)) with (pt_at target d p).
  destruct (pt_at target d p); simpl; congruence.
Qed.

Lemma sorted_with_distance (target : Point.t) (l : list Point.t) :
  StronglySorted le_dist (map (with_distance target) l) ->
  StronglySorted (nearer target) l.
Proof.
  induction l as [|p l IH]; simpl; [constructor|].
  intros [Hall Hs]%StronglySorted_cons. constructor; [by apply IH|].
  rewrite Forall_forall in Hall. apply Forall_forall. intros q Hq.
  apply (Hall (with_distance target q)).
  apply list_elem_of_In, in_map, list_elem_of_In, Hq.
Qed.

Lemma filter_prefix {A} (f : A -> bool) (l1 l2 : list A) :
  l1 `prefix_of` l2 -> List.filter f l1 `prefix_of` List.filter f l2.
Proof. intros [k ->]. rewrite List.filter_app. by apply prefix_app_r. Qed.

Lemma map_prefix {A B} (f : A -> B) (l1 l2 : list A) :
  l1 `prefix_of` l2 -> map f l1 `prefix_of` map f l2.
Proof. intros [k ->]. rewrite List.map_app. by apply prefix_app_r. Qed.

(** A prefix of a permutation of [map (with_distance target) l] is itself
    of the form [map (with_distance target) l']. *)
Lemma prefix_with_distance (target : Point.t) (l : list Point.t)
    (s t : list PointWithDistance.t) :
  s ≡ₚ map (with_distance target) l -> t `prefix_of` s ->
  t = map (with_distance target) (map PointWithDistance.Point t).
Proof.
  intros Hperm [rest ->].
  assert (Hall : Forall (fun x => x = with_distance target (PointWithDistance.Point x))
                        (t ++ rest)).
  { rewrite Hperm. apply Forall_forall. intros x Hx%list_elem_of_In%in_map_iff.
    by destruct Hx as (p & <- & _). }
  apply Forall_app in Hall as [Hall _].
  clear Hperm. induction Hall as [|x t Hx _ IH]; simpl; [reflexivity|].
  f_equal; [exact Hx|exact IH].
Qed.

(** The part of [KNearest] after the loop returns a prefix of the sorted
    candidates. *)
Lemma rank_prefix (target : Point.t) (k : Z) (cands : list Point.t) :
  exists t,
    rank target k cands = map PointWithDistance.Point t
    /\ t `prefix_of` sortByDistance (map (with_distance target) cands).
Proof.
  unfold rank. destruct cands as [|p cands]; simpl Nat.eqb; cbv iota.
  - exists []. split; [reflexivity|apply prefix_nil].
  - destruct (k <? _)%Z; eexists; (split; [reflexivity|]).
    + apply prefix_take.
    + reflexivity.
Qed.

Lemma rank_length (target : Point.t) (k : Z) (cands : list Point.t) :
  (0 < k)%Z ->
  Z.of_nat (length (rank target k cands)) = Z.min k (Z.of_nat (length cands)).
Proof.
  intros Hk. unfold rank. destruct (length cands =? 0)%nat eqn:Hz.
  - apply Nat.eqb_eq in Hz. rewrite Hz. simpl. lia.
  - assert (Hlen : length (sortByDistance (map (with_distance target) cands))
                   = length cands).
    { rewrite (Permutation_length (sortByDistance_Permutation _)).
      apply List.length_map. }
    rewrite Hlen. destruct (k <? _)%Z eqn:Hlt.
    + apply Z.ltb_lt in Hlt. rewrite List.length_map, length_take, Hlen. lia.
    + apply Z.ltb_ge in Hlt. rewrite List.length_map, Hlen. lia.
Qed.

Lemma rank_sorted (target : Point.t) (k : Z) (cands : list Point.t) :
  Forall (fun p => is_nan (Distance target p) = false) cands ->
  StronglySorted (nearer target) (rank target k cands).
Proof.
  intros Hnan. destruct (rank_prefix target k cands) as (t & -> & Hpre).
  apply sorted_with_distance.
  rewrite <- (prefix_with_distance target cands _ t
                (sortByDistance_Permutation _) Hpre).
  destruct Hpre as [rest Hrest].
  apply (StronglySorted_app_1_l _ t rest). rewrite <- Hrest.
  apply sortByDistance_sorted. unfold no_nan.
  apply Forall_forall. intros x Hx%list_elem_of_In%in_map_iff.
  destruct Hx as (p & <- & Hp%list_elem_of_In). simpl.
  rewrite Forall_forall in Hnan. by apply Hnan.
Qed.

Lemma chain_with_distance (target : Point.t) (l : list Point.t) :
  chain no_descent (map (with_distance target) l) ->
  chain (not_nearer target) l.
Proof.
  induction l as [|p [|q l] IH]; simpl; auto.
  intros [Hpq H]. split; [exact Hpq|]. by apply IH.
Qed.

Lemma rank_chain (target : Point.t) (k : Z) (cands : list Point.t) :
  Sorted (not_nearer target) (rank target k cands).
Proof.
  destruct (rank_prefix target k cands) as (t & -> & Hpre).
  apply chain_Sorted, chain_with_distance.
  rewrite <- (prefix_with_distance target cands _ t
                (sortByDistance_Permutation _) Hpre).
  destruct Hpre as [rest Hrest].
  apply (chain_split _ t rest). rewrite <- Hrest. apply sortByDistance_chain.
Qed.

Lemma rank_stable (target : Point.t) (k : Z) (cands : list Point.t) (d : float) :
  List.filter (pt_at target d) (rank target k cands)
  `prefix_of` List.filter (pt_at target d) cands.
Proof.
  destruct (rank_prefix target k cands) as (t & -> & Hpre).
  pose proof (prefix_with_distance target cands _ t
                (sortByDistance_Permutation _) Hpre) as Ht.
  apply (filter_prefix (at_dist d)) in Hpre.
  rewrite sortByDistance_stable, filter_with_distance in Hpre.
  rewrite Ht, filter_with_distance in Hpre.
  apply (map_prefix PointWithDistance.Point) in Hpre.
  by rewrite !map_with_distance_Point in Hpre.
Qed.

Lemma rank_all (target : Point.t) (k : Z) (cands : list Point.t) :
  (Z.of_nat (length cands) <= k)%Z -> rank target k cands ≡ₚ cands.
Proof.
  intros Hk. unfold rank. destruct cands as [|p cands]; [reflexivity|].
  simpl Nat.eqb. cbv iota.
  assert (Hlen : length (sortByDistance (map (with_distance target) (p :: cands)))
                 = length (p :: cands)).
  { rewrite (Permutation_length (sortByDistance_Permutation _)).
    apply List.length_map. }
  rewrite Hlen. destruct (k <? _)%Z eqn:Hlt; [apply Z.ltb_lt in Hlt; lia|].
  rewrite <- (map_with_distance_Point target (p :: cands)) at 2.
  apply Permutation_map, sortByDistance_Permutation.
Qed.

Lemma populate_reachable (b : Bounds.t) (c : Z) (fuel : nat) (ps : list Point.t) :
  forall qt qt', reachable b c qt -> populate fuel qt ps = Returns qt' ->
                 reachable b c qt'.
Proof.
  induction ps as [|p ps IH]; intros qt qt' Hqt; simpl.
  - by intros [= <-].
  - destruct (QuadTree.Insert fuel qt p) as [[qt1 r]| |] eqn:Hi; try discriminate.
    apply IH. by apply (reach_Insert b c fuel qt p qt1 r).
Qed.

(** ** The order of the answer of [KNearest] *)

(** C6. For [k > 0], [KNearest] returns (with fuel for the at most 1022
    rounds of its loop) a sequence in which no point is followed by a
    strictly nearer one; when no stored point is at a NaN distance from
    [target] this is the order of non-decreasing distance between any
    two positions.  The points at any one distance appear in the order
    in which the last probe found them. *)
Theorem KNearest_ordered (qt : QuadTree) (root : Node) (target : Point.t)
    (k : Z) (fuel : nat) :
  Root qt = Some root ->
  (0 < k)%Z ->
  (1022 <= fuel)%nat ->
  exists cands res,
    candidates fuel root target k = Some cands
    /\ KNearest fuel qt target k = Some res
    /\ Sorted (not_nearer target) res
    /\ (Forall (fun p => is_nan (Distance target p) = false) (stored root) ->
        StronglySorted (nearer target) res)
    /\ forall d, List.filter (pt_at target d) res
                 `prefix_of` List.filter (pt_at target d) cands.
Proof.
  intros Hroot Hk Hfuel. unfold KNearest. rewrite Hroot.
  destruct (k <=? 0)%Z eqn:Hk0; [apply Z.leb_le in Hk0; lia|].
  destruct (candidates_returns fuel root target k Hfuel) as [cands Hc].
  exists cands, (rank target k cands). rewrite Hc. simpl. split_and!; auto.
  - apply rank_chain.
  - intros Hnan. apply rank_sorted. apply Forall_forall. intros p Hp.
    rewrite Forall_forall in Hnan. apply Hnan.
    by apply (candidates_stored fuel root target k cands).
  - intros d. apply rank_stable.
Qed.

(** C2, as the code has it.  For [k > 0], on a tree that the public
    operations produced, [KNearest] returns at most [min k population]
    points.  It returns exactly that many, and every stored point when
    [k] is at least the population, when [k <= 100000] and the widest
    square that the loop probes around [target] ([widest_probe]: the
    radius stops at the ceiling) contains every stored point. *)
Theorem KNearest_length (b : Bounds.t) (c : Z) (qt : QuadTree) (root : Node)
    (target : Point.t) (k : Z) (fuel : nat) :
  reachable b c qt ->
  Root qt = Some root ->
  (0 < k)%Z ->
  (1022 <= fuel)%nat ->
  exists res,
    KNearest fuel qt target k = Some res
    /\ (Z.of_nat (length res) <= Z.min k (Z.of_nat (length (stored root))))%Z
    /\ ((k <= 100000)%Z ->
        (exists r, widest_probe root = Some r
                   /\ Forall (fun p => Bounds.Contains (searchBounds target r) p
                                       = true) (stored root)) ->
        Z.of_nat (length res) = Z.min k (Z.of_nat (length (stored root)))
        /\ ((Z.of_nat (length (stored root)) <= k)%Z -> res ≡ₚ stored root)).
Proof.
  intros Hreach Hroot Hk Hfuel.
  destruct (reachable_tree_ok b c qt Hreach) as (root' & Hroot' & _ & Hw & _).
  rewrite Hroot in Hroot'. injection Hroot' as <-.
  unfold KNearest. rewrite Hroot.
  destruct (k <=? 0)%Z eqn:Hk0; [apply Z.leb_le in Hk0; lia|].
  destruct (candidates_returns fuel root target k Hfuel) as [cands Hc].
  rewrite Hc. simpl. exists (rank target k cands). split; [reflexivity|].
  pose proof (candidates_sublist fuel root target k cands Hc) as Hsub.
  pose proof (sublist_length _ _ Hsub) as Hlen.
  pose proof (rank_length target k cands Hk) as Hrl.
  split; [lia|]. intros Hk5 (r & Hwp & Hcov).
  unfold widest_probe in Hwp.
  destruct (10 <=? maxRadius root)%float eqn:H10; [|discriminate].
  apply (inj Some) in Hwp. subst r.
  unfold candidates in Hc. cbv zeta in Hc.
  apply (probe_widest root target k _ (maxRadius root) fuel) in Hc as [Hfull| ->];
    [| |rewrite int_wrap_small by lia; destruct (100000 <? k * 10)%Z; lia
     |exact H10].
  - (* the loop stopped with [k] candidates or more *)
    split; [lia|]. intros Hall.
    rewrite (rank_all target k cands) by lia.
    apply submseteq_length_Permutation; [by apply sublist_submseteq|lia].
  - (* the loop ended with its widest probe, which holds every point *)
    rewrite (widest_stable _ 1021 10 fuel 1022 doubled_overflows) in *
      by lia.
    rewrite (SearchTree_complete _ _ Hw), (filter_all _ _ Hcov) in *.
    split; [exact Hrl|]. apply rank_all.
Qed.

(** ** Coincident points beyond the capacity *)

Lemma halved_add (a b : nat) (w : float) :
  halved (a + b) w = halved b (halved a w).
Proof. revert w. induction a as [|a IH]; intros w; simpl; auto. Qed.

Lemma halved_zero (n : nat) : halved n 0%float = 0%float.
Proof. induction n as [|n IH]; simpl; auto. Qed.

(** From 100 the extent underflows to 0 within 1100 halvings and stays
    there; the interval holds 0 all the way. *)
Lemma origin_cell_100 : origin_cell 100.
Proof.
  assert (Hsmall : forallb (fun n => (0 <=? 0 + halved n 100)%float)
                           (seq 0 1100) = true) by (vm_compute; reflexivity).
  assert (Hzero : halved 1100 100 = 0%float) by (vm_compute; reflexivity).
  intros n. destruct (Nat.lt_ge_cases n 1100) as [Hlt|Hge].
  - rewrite forallb_forall in Hsmall. apply Hsmall, in_seq. lia.
  - replace n with (1100 + (n - 1100))%nat by lia.
    rewrite halved_add, Hzero, halved_zero. reflexivity.
Qed.

Lemma origin_cell_half (w : float) : origin_cell w -> origin_cell (w / 2).
Proof. intros H n. apply (H (S n)). Qed.

Lemma InsertNode_unfold (fuel : nat) (n : Node) (point : Point.t) :
  InsertNode (S fuel) n point =
  if negb (Bounds.Contains (Bounds n) point) then Some (n, false) else
  match n with
  | Inner b ps cap c0 c1 c2 c3 =>
      '((c0, c1, c2, c3), r) ←
         first_accepting (InsertNode fuel) (c0, c1, c2, c3) point;
      Some (Inner b ps cap c0 c1 c2 c3, r)
  | Leaf b ps cap =>
      if (Z.of_nat (length ps) <? cap)%Z
      then Some (Leaf b (ps ++ [point]) cap, true)
      else
        n' ← SubDivide_with (InsertNode fuel) n;
        match n' with
        | Inner b ps cap c0 c1 c2 c3 =>
            '((c0, c1, c2, c3), r) ←
               first_accepting (InsertNode fuel) (c0, c1, c2, c3) point;
            Some (Inner b ps cap c0 c1 c2 c3, r)
        | Leaf _ _ _ => Some (n', false)
        end
  end.
Proof. reflexivity. Qed.

Arguments InsertNode : simpl never.

(** ** More fuel does not change what a call returns *)

Section MoreFuel.
Variables ins ins' : Node -> Point.t -> option (Node * bool).
Hypothesis ins_mono : forall n p r, ins n p = Some r -> ins' n p = Some r.

Lemma first_accepting_mono (cs : quad) (p : Point.t) (r : quad * bool) :
  first_accepting ins cs p = Some r -> first_accepting ins' cs p = Some r.
Proof using ins_mono.
  destruct cs as [[[c0 c1] c2] c3]. unfold first_accepting.
  destruct (ins c0 p) as [[d0 r0]|] eqn:H0; simpl; [|discriminate].
  rewrite (ins_mono _ _ _ H0). simpl. destruct r0; [auto|].
  destruct (ins c1 p) as [[d1 r1]|] eqn:H1; simpl; [|discriminate].
  rewrite (ins_mono _ _ _ H1). simpl. destruct r1; [auto|].
  destruct (ins c2 p) as [[d2 r2]|] eqn:H2; simpl; [|discriminate].
  rewrite (ins_mono _ _ _ H2). simpl. destruct r2; [auto|].
  destruct (ins c3 p) as [[d3 r3]|] eqn:H3; simpl; [|discriminate].
  rewrite (ins_mono _ _ _ H3). simpl. auto.
Qed.

Lemma redistribute_mono (ps : list Point.t) (cs cs' : quad) :
  redistribute ins ps cs = Some cs' -> redistribute ins' ps cs = Some cs'.
Proof using ins_mono.
  revert cs. induction ps as [|p ps IH]; intros cs; simpl; [auto|].
  destruct (first_accepting ins cs p) as [[cs1 r]|] eqn:H1; simpl; [|discriminate].
  rewrite (first_accepting_mono _ _ _ H1). simpl. apply IH.
Qed.
End MoreFuel.

Lemma InsertNode_fuel_S (fuel : nat) :
  forall n p r, InsertNode fuel n p = Some r -> InsertNode (S fuel) n p = Some r.
Proof.
  induction fuel as [|fuel IH]; intros n p r; [discriminate|].
  rewrite (InsertNode_unfold fuel), (InsertNode_unfold (S fuel)).
  destruct (negb _); [auto|].
  destruct n as [b ps cap|b ps cap c0 c1 c2 c3].
  - destruct (Z.of_nat (length ps) <? cap)%Z; [auto|].
    unfold SubDivide_with. cbn [Points Bounds Capacity].
    destruct (redistribute (InsertNode fuel) ps _) as [[[[d0 d1] d2] d3]|] eqn:Hre;
      simpl; [|discriminate].
    rewrite (redistribute_mono _ _ IH _ _ _ Hre). simpl.
    destruct (first_accepting (InsertNode fuel) (d0, d1, d2, d3) p)
      as [fa|] eqn:Hfa; simpl; [|discriminate].
    by rewrite (first_accepting_mono _ _ IH _ _ _ Hfa).
  - destruct (first_accepting (InsertNode fuel) (c0, c1, c2, c3) p)
      as [fa|] eqn:Hfa; simpl; [|discriminate].
    by rewrite (first_accepting_mono _ _ IH _ _ _ Hfa).
Qed.

Lemma InsertNode_fuel_mono (fuel fuel' : nat) (n : Node) (p : Point.t)
    (r : Node * bool) :
  (fuel <= fuel')%nat ->
  InsertNode fuel n p = Some r -> InsertNode fuel' n p = Some r.
Proof. induction 1; auto using InsertNode_fuel_S. Qed.

(** An [Insert] that returns with some fuel returns the same with more. *)
Lemma Insert_fuel_mono (fuel fuel' : nat) (qt : QuadTree) (p : Point.t)
    (r : QuadTree * bool) :
  (fuel <= fuel')%nat ->
  QuadTree.Insert fuel qt p = Returns r -> QuadTree.Insert fuel' qt p = Returns r.
Proof.
  intros Hle. unfold QuadTree.Insert. destruct (Root qt) as [root|]; [|auto].
  destruct (InsertNode fuel root p) as [[root' res]|] eqn:Hi; [|discriminate].
  by rewrite (InsertNode_fuel_mono _ _ _ _ _ Hle Hi).
Qed.

(** An [Update] that returns with some fuel returns the same with more. *)
Lemma Update_fuel_mono (fuel fuel' : nat) (qt : QuadTree) (p q : Point.t)
    (r : QuadTree * bool) :
  (fuel <= fuel')%nat ->
  QuadTree.Update fuel qt p q = Returns r ->
  QuadTree.Update fuel' qt p q = Returns r.
Proof.
  intros Hle. unfold QuadTree.Update. destruct (Root qt) as [root|]; [|auto].
  destruct (negb _); [auto|].
  destruct (RemoveNode root p) as [root1 []]; [|auto].
  destruct (InsertNode fuel root1 q) as [[root2 res]|] eqn:Hi; [|discriminate].
  rewrite (InsertNode_fuel_mono _ _ _ _ _ Hle Hi). destruct res; [auto|].
  destruct (InsertNode fuel root2 p) as [[root3 res]|] eqn:Hi3; [|discriminate].
  by rewrite (InsertNode_fuel_mono _ _ _ _ _ Hle Hi3).
Qed.

Lemma InsertNode_empty_leaf (fuel : nat) (b : Bounds.t) (cap : Z) (p : Point.t) :
  Bounds.Contains b p = true -> (0 < cap)%Z ->
  InsertNode (S fuel) (Leaf b [] cap) p = Some (Leaf b [p] cap, true).
Proof.
  intros Hin Hcap. rewrite InsertNode_unfold. cbn [Bounds]. rewrite Hin.
  cbn [negb length]. change (Z.of_nat 0) with 0%Z.
  apply Z.ltb_lt in Hcap. by rewrite Hcap.
Qed.

Lemma first_accepting_first (ins : Node -> Point.t -> option (Node * bool))
    (c0 c0' c1 c2 c3 : Node) (p : Point.t) :
  ins c0 p = Some (c0', true) ->
  first_accepting ins (c0, c1, c2, c3) p = Some ((c0', c1, c2, c3), true).
Proof. intros H. unfold first_accepting. by rewrite H. Qed.

Lemma first_accepting_stuck (ins : Node -> Point.t -> option (Node * bool))
    (c0 c1 c2 c3 : Node) (p : Point.t) :
  ins c0 p = None -> first_accepting ins (c0, c1, c2, c3) p = None.
Proof. intros H. unfold first_accepting. by rewrite H. Qed.

Lemma Contains_origin (w h : float) (d : Any) :
  origin_cell w -> origin_cell h ->
  Bounds.Contains (Bounds.mk 0 0 w h) (Point.mk 0 0 d) = true.
Proof.
  intros Hw Hh. unfold Bounds.Contains, F64.geb. simpl.
  pose proof (Hw O) as H1. pose proof (Hh O) as H2. simpl in H1, H2.
  rewrite H1, H2. reflexivity.
Qed.

(** A full leaf at the origin that holds a point at the origin never
    takes a second one: the subdivision puts the old point into the NW
    child, which is again a full leaf at the origin, and so on. *)
Lemma origin_leaf_diverges (d1 d2 : Any) (fuel : nat) :
  forall w h, origin_cell w -> origin_cell h ->
    InsertNode fuel (Leaf (Bounds.mk 0 0 w h) [Point.mk 0 0 d1] 1)
               (Point.mk 0 0 d2) = None.
Proof.
  induction fuel as [|fuel IH]; intros w h Hw Hh; [reflexivity|].
  rewrite InsertNode_unfold. simpl Bounds.
  rewrite (Contains_origin w h d2 Hw Hh). simpl negb. cbv iota.
  change (Z.of_nat (length [Point.mk 0 0 d1]) <? 1)%Z with false. cbv iota.
  destruct fuel as [|fuel']; [reflexivity|].
  unfold SubDivide_with, fresh_children. simpl.
  rewrite (first_accepting_first _ _ (Leaf (Bounds.mk 0 0 (w / 2) (h / 2))
                                           [Point.mk 0 0 d1] 1)).
  - cbn. rewrite first_accepting_stuck; [reflexivity|].
    apply IH; by apply origin_cell_half.
  - apply InsertNode_empty_leaf; [|reflexivity].
    apply Contains_origin; by apply origin_cell_half.
Qed.

(** ** Worked examples *)

Set Warnings "-inexact-float".

Local Open Scope float_scope.

Lemma split_root_reachable : reachable hundred 2 (mkQuadTree (Some split_root)).
Proof.
  apply (populate_reachable hundred 2 3 four_points (create hundred 2));
    [apply reach_create|vm_compute; reflexivity].
Qed.

(** C7 at the tree of [four_points], capacity 2: its SE-of-NW leaf holds
    two points. *)
Lemma capacity_invariant_witness :
  Capacity (Leaf (Bounds.mk 25 25 25 25)
              [Point.mk 30 30 (AString "p3"); Point.mk 40 40 (AString "p4")] 2)
  = 2%Z
  /\ forall b' ps cap,
       Leaf (Bounds.mk 25 25 25 25)
         [Point.mk 30 30 (AString "p3"); Point.mk 40 40 (AString "p4")] 2
       = Leaf b' ps cap ->
       ((0 <= 2)%Z -> (Z.of_nat (length ps) <= 2)%Z)
       /\ ((2 < 0)%Z -> ps = []).
Proof.
  apply (capacity_invariant hundred 2 (mkQuadTree (Some split_root)) split_root).
  - apply split_root_reachable.
  - reflexivity.
  - eapply node_of_child; [apply list_elem_of_here|].
    eapply node_of_child; [|apply node_of_here].
    do 3 apply list_elem_of_further. apply list_elem_of_here.
Defined.

(** C8 at a removal aimed outside the root's rectangle. *)
Lemma Remove_failure_unchanged_witness :
  Bounds.Contains hundred (Point.mk 150 150 ANil) = false
  /\ QuadTree.Remove single_tree (Point.mk 150 150 ANil)
     = Returns (single_tree, false).
Proof.
  split; [reflexivity|].
  apply (Remove_failure_unchanged single_tree
           (Leaf hundred [Point.mk 50 50 (AString "v")] 4)
           (Point.mk 150 150 ANil) eq_refl).
  left. reflexivity.
Defined.

Lemma twin_tree_reachable : reachable hundred 4 twin_tree.
Proof.
  apply (populate_reachable hundred 4 1 twins (create hundred 4));
    [apply reach_create|vm_compute; reflexivity].
Qed.

(** C10 at the tree of [twins]: two points at (5, 5). *)
Lemma Remove_one_of_duplicates_witness :
  exists qt' e,
    QuadTree.Remove twin_tree (Point.mk 5 5 ANil) = Returns (qt', true)
    /\ same_xy e (Point.mk 5 5 ANil) = true
    /\ stored_in twin_tree ≡ₚ e :: stored_in qt'
    /\ (1 <= length (List.filter (fun e => same_xy e (Point.mk 5 5 ANil))
                       (stored_in qt')))%nat.
Proof.
  apply (Remove_one_of_duplicates hundred 4 twin_tree (Point.mk 5 5 ANil)).
  - apply twin_tree_reachable.
  - vm_compute. apply le_n.
Defined.

(** What that removal does: the first match goes, the last point takes
    its slot. *)
Example Remove_twin :
  QuadTree.Remove twin_tree (Point.mk 5 5 ANil)
  = Returns (mkQuadTree (Some (Leaf hundred
               [Point.mk 7 7 (AString "c"); Point.mk 5 5 (AString "b")] 4)),
             true).
Proof. vm_compute. reflexivity. Qed.

(** C6 at the distance example, [k = 2], target the origin. *)
Lemma KNearest_ordered_witness :
  exists cands res,
    candidates 1022 ranked_root (Point.mk 0 0 ANil) 2 = Some cands
    /\ KNearest 1022 (mkQuadTree (Some ranked_root)) (Point.mk 0 0 ANil) 2
       = Some res
    /\ Sorted (not_nearer (Point.mk 0 0 ANil)) res
    /\ (Forall (fun p => is_nan (Distance (Point.mk 0 0 ANil) p) = false)
          (stored ranked_root) ->
        StronglySorted (nearer (Point.mk 0 0 ANil)) res)
    /\ forall d, List.filter (pt_at (Point.mk 0 0 ANil) d) res
                 `prefix_of` List.filter (pt_at (Point.mk 0 0 ANil) d) cands.
Proof.
  apply (KNearest_ordered (mkQuadTree (Some ranked_root)) ranked_root).
  - reflexivity.
  - reflexivity.
  - apply le_n.
Defined.

(** C2 in range: [far_tree], queried for three points from (50, 50).
    The first probes find nothing; the widest one, of half-width 160,
    holds the stored point, and the one point of the population is
    returned. *)
Lemma KNearest_length_witness :
  widest_probe (Leaf hundred [Point.mk 10 10 (AString "p1")] 4) = Some 160%float
  /\ exists res,
       KNearest 1022 far_tree (Point.mk 50 50 ANil) 3 = Some res
       /\ Z.of_nat (length res) = Z.min 3 (Z.of_nat (length (stored_in far_tree)))
       /\ res ≡ₚ stored_in far_tree.
Proof.
  split; [vm_compute; reflexivity|].
  destruct (KNearest_length hundred 4 far_tree
              (Leaf hundred [Point.mk 10 10 (AString "p1")] 4)
              (Point.mk 50 50 ANil) 3 1022)
    as (res & Hres & _ & Hin).
  - apply (populate_reachable hundred 4 1 [Point.mk 10 10 (AString "p1")]
             (create hundred 4)); [apply reach_create|vm_compute; reflexivity].
  - reflexivity.
  - lia.
  - lia.
  - exists res. split; [exact Hres|].
    destruct Hin as [Hlen Hall].
    + lia.
    + exists 160%float. split; [vm_compute; reflexivity|].
      repeat constructor.
    + split; [exact Hlen|]. apply Hall. simpl. lia.
Defined.

(** What the call of the distance example returns: the two points at
    distance 5, in the order in which they were found. *)
Example KNearest_two_of_three :
  KNearest 1022 (mkQuadTree (Some ranked_root)) (Point.mk 0 0 ANil) 2
  = Some [Point.mk 3 4 (AString "a"); Point.mk 4 3 (AString "b")].
Proof. vm_compute. reflexivity. Qed.

(** C2, the claim as stated fails.  [far_tree] stores one point and the
    target (1000, 1000) is far outside it.  The radius stops growing at
    twice the larger side of the root, 200; the last probe is the square
    of half-width 160 around the target and finds nothing; [KNearest]
    returns no point, where [min k population] is 1. *)
Lemma KNearest_misses_far_target :
  reachable hundred 4 far_tree
  /\ stored_in far_tree = [Point.mk 10 10 (AString "p1")]
  /\ candidates 1022 (Leaf hundred [Point.mk 10 10 (AString "p1")] 4)
       (Point.mk 1000 1000 ANil) 1 = Some []
  /\ KNearest 1022 far_tree (Point.mk 1000 1000 ANil) 1 = Some []
  /\ Z.of_nat (length (@nil Point.t))
     <> Z.min 1 (Z.of_nat (length (stored_in far_tree))).
Proof.
  split_and!.
  - apply (populate_reachable hundred 4 1 [Point.mk 10 10 (AString "p1")]
             (create hundred 4)); [apply reach_create|vm_compute; reflexivity].
  - reflexivity.
  - vm_compute. reflexivity.
  - vm_compute. reflexivity.
  - discriminate.
Qed.

(** A tree whose sides are shorter than 5 is never probed: the loop
    tests the first radius, 10, against the ceiling before its first
    search, where the algorithm as described searches at radius 10
    first.  A target on a stored point gets no answer. *)
Example KNearest_small_tree :
  KNearest 1022
    (mkQuadTree (Some (Leaf (Bounds.mk 0 0 4 4) [Point.mk 1 1 ANil] 4)))
    (Point.mk 1 1 ANil) 1
  = Some [].
Proof. vm_compute. reflexivity. Qed.

(** ** Where the code departs from the specification *)

(** The children of a cell end at [(x + w/2) + w/2], computed in
    binary64, which can fall one rounding step short of the parent's end
    [x + w].  For [edge_bounds] the parent ends at 0.3 + 0.7 = 1 and its
    eastern children at (0.3 + 0.35) + 0.35 = 0.9999999999999999; a point
    with x = 1 is inside the parent and inside no child. *)
Lemma children_fall_short :
  (0.3 + 0.7 =? 1) = true
  /\ ((0.3 + 0.7 / 2) + 0.7 / 2 <? 1) = true
  /\ Bounds.Contains edge_bounds edge_point = true
  /\ (let '(c0, c1, c2, c3) := fresh_children edge_bounds 1 in
      Bounds.Contains (Bounds c0) edge_point
      || Bounds.Contains (Bounds c1) edge_point
      || Bounds.Contains (Bounds c2) edge_point
      || Bounds.Contains (Bounds c3) edge_point) = false.
Proof. vm_compute. auto. Qed.

(** The direction of C4 that holds: a point outside the root's rectangle
    is refused and the tree is left as it was. *)
Lemma Insert_outside_root (fuel : nat) (qt : QuadTree) (root : Node)
    (p : Point.t) :
  Root qt = Some root ->
  Bounds.Contains (Bounds root) p = false ->
  QuadTree.Insert (S fuel) qt p = Returns (qt, false).
Proof.
  destruct qt as [r]. simpl. intros -> Hout. unfold QuadTree.Insert. simpl.
  rewrite InsertNode_unfold, Hout. reflexivity.
Qed.

(** C1, at the failing input.  [edge_point] is inserted with success and
    a search over the whole rectangle returns it.  Then [mid_point] is
    inserted: the root, a full leaf, is subdivided, no child takes
    [edge_point], and the same search returns [mid_point] alone, although
    [edge_point] was never removed. *)
Theorem subdivision_drops_edge_point :
  QuadTree.Insert 2 (create edge_bounds 1) edge_point
  = Returns (mkQuadTree (Some (Leaf edge_bounds [edge_point] 1)), true)
  /\ Bounds.Contains edge_bounds edge_point = true
  /\ QuadTree.Search (mkQuadTree (Some (Leaf edge_bounds [edge_point] 1)))
       edge_bounds = [edge_point]
  /\ exists qt2,
       QuadTree.Insert 2 (mkQuadTree (Some (Leaf edge_bounds [edge_point] 1)))
         mid_point = Returns (qt2, true)
       /\ stored_in qt2 = [mid_point]
       /\ QuadTree.Search qt2 edge_bounds = [mid_point].
Proof.
  split_and!; try (vm_compute; reflexivity).
  eexists. split_and!; vm_compute; reflexivity.
Qed.

(** C4, at the failing input.  With [mid_point] stored first, the insert
    of [edge_point], which lies inside the root's rectangle, returns
    false: the root is subdivided and none of the children contains the
    point. *)
Theorem in_bounds_point_refused :
  QuadTree.Insert 2 (create edge_bounds 1) mid_point
  = Returns (mkQuadTree (Some (Leaf edge_bounds [mid_point] 1)), true)
  /\ Bounds.Contains edge_bounds edge_point = true
  /\ exists qt2,
       QuadTree.Insert 2 (mkQuadTree (Some (Leaf edge_bounds [mid_point] 1)))
         edge_point = Returns (qt2, false)
       /\ stored_in qt2 = [mid_point].
Proof.
  split_and!; try (vm_compute; reflexivity).
  eexists. split_and!; vm_compute; reflexivity.
Qed.

(** C3, at the failing input.  Capacity 1, the point (0, 0) stored once:
    inserting a second point at (0, 0), which lies inside the root's
    rectangle, does not come back, whatever depth of recursion is
    allowed. *)
Theorem coincident_insert_never_returns :
  QuadTree.Insert 1 (create hundred 1) depot_a = Returns (depot_tree, true)
  /\ Bounds.Contains hundred depot_b = true
  /\ forall fuel, QuadTree.Insert fuel depot_tree depot_b = OutOfFuel.
Proof.
  split_and!; [reflexivity|reflexivity|].
  intros fuel. unfold QuadTree.Insert, depot_tree. cbn [Root].
  unfold depot_a, depot_b, hundred.
  by rewrite (origin_leaf_diverges _ _ fuel 100 100 origin_cell_100 origin_cell_100).
Qed.

(** The part of C5 that holds: an [Update] that is rejected before the
    insertion, because the new point is outside the root's rectangle or
    no stored point matches the old one, leaves the tree as it was. *)
Lemma Update_rejected_unchanged (fuel : nat) (qt : QuadTree) (root : Node)
    (oldPoint newPoint : Point.t) :
  Root qt = Some root ->
  Bounds.Contains (Bounds root) newPoint = false
  \/ Forall (fun e => same_xy e oldPoint = false) (stored root) ->
  QuadTree.Update fuel qt oldPoint newPoint = Returns (qt, false).
Proof.
  destruct qt as [r]. simpl. intros -> Hrej. unfold QuadTree.Update. simpl.
  destruct (Bounds.Contains (Bounds root) newPoint) eqn:Hin; simpl; [|reflexivity].
  destruct Hrej as [?|Hnone]; [discriminate|].
  by rewrite (RemoveNode_no_match _ _ Hnone).
Qed.

(** C5, at the failing input.  The tree holds [bystander] in its NW leaf
    and [old_point] in its SW leaf.  [Update old_point new_point] returns
    true, but the insertion of [new_point] subdivides the NW leaf, which
    drops [bystander]: afterwards [new_point] alone is stored, not the
    earlier points with [old_point] replaced by [new_point]. *)
Theorem Update_loses_bystander :
  exists qt qt',
    populate 2 (create wide_bounds 1) [bystander; old_point] = Returns qt
    /\ stored_in qt = [bystander; old_point]
    /\ QuadTree.Update 3 qt old_point new_point = Returns (qt', true)
    /\ stored_in qt' = [new_point]
    /\ ~ stored_in qt' ≡ₚ [bystander; new_point].
Proof.
  eexists _, _. split_and!; try (vm_compute; reflexivity).
  intros H%Permutation_length. vm_compute in H. discriminate.
Qed.

(** * Further properties of the operations *)

Local Close Scope float_scope.

(** ** What a search returns *)

(** X1. On any tree, [Search] returns stored points only, in storage
    order and none more often than it is stored, and every returned
    point is inside the search area. *)
Theorem Search_sound (qt : QuadTree) (area : Bounds.t) :
  QuadTree.Search qt area `sublist_of` stored_in qt
  /\ Forall (fun p => Bounds.Contains area p = true) (QuadTree.Search qt area).
Proof.
  unfold QuadTree.Search, stored_in. destruct (Root qt) as [root|].
  - split; [apply SearchTree_sublist|].
    apply Forall_forall. intros p Hp. by apply SearchTree_stored in Hp as [_ Hp].
  - split; [reflexivity|constructor].
Qed.

(** X2. On a tree that the public operations produced, [Search] returns
    exactly the stored points that the area contains, each as often as
    it is stored: pruning by [Intersects] loses nothing. *)
Theorem Search_complete (b : Bounds.t) (c : Z) (qt : QuadTree)
    (area : Bounds.t) :
  reachable b c qt ->
  QuadTree.Search qt area = List.filter (Bounds.Contains area) (stored_in qt).
Proof.
  intros (root & Hroot & _ & Hw & _)%reachable_tree_ok.
  unfold QuadTree.Search, stored_in. rewrite Hroot.
  by apply SearchTree_complete.
Qed.

(** X2 at the tree of [four_points] and the square from (15, 15) to
    (35, 35): the points (20, 20) and (30, 30), which lie in different
    leaves. *)
Lemma Search_complete_witness :
  QuadTree.Search (mkQuadTree (Some split_root)) (Bounds.mk 15 15 20 20)
  = List.filter (Bounds.Contains (Bounds.mk 15 15 20 20))
      (stored_in (mkQuadTree (Some split_root))).
Proof.
  apply (Search_complete hundred 2 (mkQuadTree (Some split_root))).
  apply split_root_reachable.
Defined.

(** X3. Rectangles that do not intersect share no point: what
    [Contains] accepts for one, it refuses for the other. *)
Theorem disjoint_rectangles_share_no_point (a b : Bounds.t) (p : Point.t) :
  Bounds.Intersects a b = false ->
  Bounds.Contains a p = true ->
  Bounds.Contains b p = false.
Proof.
  intros Hno Ha. destruct (Bounds.Contains b p) eqn:Hb; [|reflexivity].
  by rewrite (Contains_both_Intersects a b p Ha Hb) in Hno.
Qed.

Lemma disjoint_rectangles_share_no_point_witness :
  Bounds.Contains (Bounds.mk 20 20 5 5) (Point.mk 5 5 ANil) = false.
Proof.
  apply (disjoint_rectangles_share_no_point (Bounds.mk 0 0 10 10)
           (Bounds.mk 20 20 5 5) (Point.mk 5 5 ANil)); reflexivity.
Defined.

(** ** The shape of the tree *)

Lemma within_node_of (n t : Node) : within t -> node_of n t -> within n.
Proof.
  intros Ht Hn. induction Hn as [|b ps cap c0 c1 c2 c3 ch Hch _ IH]; [exact Ht|].
  destruct Ht as (_ & H0 & H1 & H2 & H3). apply IH.
  rewrite !elem_of_cons in Hch.
  destruct Hch as [->|[->|[->|[->|Hch]]]]; try assumption. inversion Hch.
Qed.

(** X4. In a tree that the public operations produced, the root keeps
    the rectangle it was created with, and the points stored below any
    node lie inside that node's rectangle. *)
Theorem stored_points_inside_cells (b : Bounds.t) (c : Z) (qt : QuadTree)
    (root n : Node) (q : Point.t) :
  reachable b c qt ->
  Root qt = Some root ->
  node_of n root ->
  q ∈ stored n ->
  Bounds root = b /\ Bounds.Contains (Bounds n) q = true.
Proof.
  intros (root' & Hroot & Hb & Hw & _)%reachable_tree_ok Hr Hn Hq.
  rewrite Hr in Hroot. injection Hroot as <-. split; [exact Hb|].
  apply within_stored; [|exact Hq]. by apply (within_node_of n root).
Qed.

(** X4 at the tree of [four_points]: (30, 30) below the NW child of the
    root. *)
Lemma stored_points_inside_cells_witness :
  Bounds split_root = hundred
  /\ Bounds.Contains (Bounds.mk 0 0 50 50) (Point.mk 30 30 (AString "p3")) = true.
Proof.
  apply (stored_points_inside_cells hundred 2 (mkQuadTree (Some split_root))
           split_root split_nw (Point.mk 30 30 (AString "p3"))).
  - apply split_root_reachable.
  - reflexivity.
  - eapply node_of_child; [apply list_elem_of_here|apply node_of_here].
  - simpl. do 2 apply list_elem_of_further. apply list_elem_of_here.
Defined.

(** What every attempt keeps, for a property [P] of nodes that each
    recursive call keeps. *)
Section Kept.
Variable P : Node -> Prop.
Variable ins : Node -> Point.t -> option (Node * bool).
Hypothesis ins_kept : forall n p n' r, P n -> ins n p = Some (n', r) -> P n'.

Lemma first_accepting_kept (cs cs' : quad) (p : Point.t) (r : bool) :
  all4 P cs -> first_accepting ins cs p = Some (cs', r) -> all4 P cs'.
Proof using ins_kept.
  destruct cs as [[[c0 c1] c2] c3], cs' as [[[c0' c1'] c2'] c3'].
  intros (P0 & P1 & P2 & P3). unfold first_accepting. simpl.
  destruct (ins c0 p) as [[d0 []]|] eqn:H0; simpl; try discriminate.
  { intros [= <- <- <- <- <-]. split_and!; eauto. }
  destruct (ins c1 p) as [[d1 []]|] eqn:H1; simpl; try discriminate.
  { intros [= <- <- <- <- <-]. split_and!; eauto. }
  destruct (ins c2 p) as [[d2 []]|] eqn:H2; simpl; try discriminate.
  { intros [= <- <- <- <- <-]. split_and!; eauto. }
  destruct (ins c3 p) as [[d3 r3]|] eqn:H3; simpl; try discriminate.
  intros [= <- <- <- <- <-]. split_and!; eauto.
Qed.

Lemma redistribute_kept (ps : list Point.t) (cs cs' : quad) :
  all4 P cs -> redistribute ins ps cs = Some cs' -> all4 P cs'.
Proof using ins_kept.
  revert cs. induction ps as [|p ps IH]; intros cs Hcs; simpl.
  - by intros [= <-].
  - destruct (first_accepting ins cs p) as [[cs1 r]|] eqn:H1;
      simpl; [|discriminate].
    apply IH. by apply (first_accepting_kept cs cs1 p r).
Qed.
End Kept.

Lemma InsertNode_layout (fuel : nat) :
  forall n p n' r, layout n -> InsertNode fuel n p = Some (n', r) -> layout n'.
Proof.
  induction fuel as [|fuel IH]; intros n p n' r Hn; [discriminate|].
  rewrite InsertNode_unfold. destruct (negb _); [by intros [= <- <-]|].
  destruct n as [b ps cap|b ps cap c0 c1 c2 c3].
  - destruct (Z.of_nat (length ps) <? cap)%Z; [by intros [= <- <-]|].
    unfold SubDivide_with. cbn [Points Bounds Capacity].
    destruct (redistribute (InsertNode fuel) ps (fresh_children b cap))
      as [[[[d0 d1] d2] d3]|] eqn:Hre; simpl; [|discriminate].
    destruct (first_accepting (InsertNode fuel) (d0, d1, d2, d3) p)
      as [[[[[e0 e1] e2] e3] r']|] eqn:Hfa; simpl; [|discriminate].
    intros [= <- <-].
    pose proof (redistribute_touched _ (InsertNode_touched fuel) _ _ _ Hre) as Tre.
    pose proof (first_accepting_touched _ (InsertNode_touched fuel) _ _ _ _ Hfa)
      as Tfa.
    apply (redistribute_kept layout _ IH) in Hre; [|by unfold fresh_children].
    apply (first_accepting_kept layout _ IH) in Hfa; [|exact Hre].
    unfold fresh_children in Tre. simpl in Tre, Tfa.
    destruct Tre as ((B0&_) & (B1&_) & (B2&_) & (B3&_)).
    destruct Tfa as ((B0'&_) & (B1'&_) & (B2'&_) & (B3'&_)).
    simpl. split; [|exact Hfa].
    rewrite B0', B1', B2', B3', B0, B1, B2, B3. reflexivity.
  - destruct (first_accepting (InsertNode fuel) (c0, c1, c2, c3) p)
      as [[[[[e0 e1] e2] e3] r']|] eqn:Hfa; simpl; [|discriminate].
    intros [= <- <-]. destruct Hn as (Hq & Hl).
    pose proof (first_accepting_touched _ (InsertNode_touched fuel) _ _ _ _ Hfa)
      as Tfa.
    apply (first_accepting_kept layout _ IH) in Hfa; [|exact Hl].
    simpl in Tfa. destruct Tfa as ((B0'&_) & (B1'&_) & (B2'&_) & (B3'&_)).
    simpl. split; [|exact Hfa]. by rewrite B0', B1', B2', B3'.
Qed.

(** A removal changes the points of one leaf and nothing else. *)
Lemma RemoveNode_skeleton (n : Node) (point : Point.t) :
  skeleton (RemoveNode n point).1 = skeleton n.
Proof.
  induction n as [b ps cap|b ps cap c0 IH0 c1 IH1 c2 IH2 c3 IH3]; simpl;
    (destruct (negb _); [reflexivity|]).
  - by destruct (find_match point ps 0).
  - destruct (RemoveNode c0 point) as [c0' []]; simpl in *; [by rewrite IH0|].
    destruct (RemoveNode c1 point) as [c1' []]; simpl in *;
      [by rewrite IH0, IH1|].
    destruct (RemoveNode c2 point) as [c2' []]; simpl in *;
      [by rewrite IH0, IH1, IH2|].
    destruct (RemoveNode c3 point) as [c3' r]; simpl in *.
    by rewrite IH0, IH1, IH2, IH3.
Qed.

Lemma skeleton_Bounds (n : Node) : Bounds (skeleton n) = Bounds n.
Proof. by destruct n. Qed.

Lemma layout_skeleton (n : Node) : layout (skeleton n) <-> layout n.
Proof.
  induction n as [b ps cap|b ps cap c0 IH0 c1 IH1 c2 IH2 c3 IH3]; simpl;
    [tauto|].
  rewrite !skeleton_Bounds, IH0, IH1, IH2, IH3. tauto.
Qed.

Lemma RemoveNode_layout (n : Node) (point : Point.t) :
  layout n -> layout (RemoveNode n point).1.
Proof.
  intros Hn. apply layout_skeleton. rewrite RemoveNode_skeleton.
  by apply layout_skeleton.
Qed.

Lemma reachable_layout (b : Bounds.t) (c : Z) (qt : QuadTree) (root : Node) :
  reachable b c qt -> Root qt = Some root -> layout root.
Proof.
  intros Hreach. revert root.
  induction Hreach as [|fuel qt p qt' r _ IH Hop|qt p qt' r _ IH Hop
                       |fuel qt p q qt' r _ IH Hop]; intros root'.
  - by intros [= <-].
  - unfold QuadTree.Insert in Hop. destruct (Root qt) as [root|]; [|discriminate].
    destruct (InsertNode fuel root p) as [[root1 res]|] eqn:Hi; [|discriminate].
    injection Hop as <- <-. intros [= <-].
    by apply (InsertNode_layout fuel root p root1 res); [apply IH|].
  - unfold QuadTree.Remove in Hop. destruct (Root qt) as [root|]; [|discriminate].
    pose proof (RemoveNode_layout root p (IH _ eq_refl)) as Hr.
    destruct (RemoveNode root p) as [root1 res]. injection Hop as <- <-.
    by intros [= <-].
  - unfold QuadTree.Update in Hop. destruct (Root qt) as [root|] eqn:Hroot;
      [|discriminate].
    destruct (negb _).
    { injection Hop as <- <-. rewrite Hroot. intros [= <-]. by apply IH. }
    pose proof (RemoveNode_layout root p (IH _ eq_refl)) as Hr.
    destruct (RemoveNode root p) as [root1 removed]. simpl in Hr.
    destruct removed; [|injection Hop as <- <-; by intros [= <-]].
    destruct (InsertNode fuel root1 q) as [[root2 res]|] eqn:Hi2; [|discriminate].
    apply InsertNode_layout in Hi2; [|exact Hr].
    destruct res; [injection Hop as <- <-; by intros [= <-]|].
    destruct (InsertNode fuel root2 p) as [[root3 res]|] eqn:Hi3; [|discriminate].
    apply InsertNode_layout in Hi3; [|exact Hi2].
    injection Hop as <- <-. by intros [= <-].
Qed.

Lemma layout_node_of (n t : Node) : layout t -> node_of n t -> layout n.
Proof.
  intros Ht Hn. induction Hn as [|b ps cap c0 c1 c2 c3 ch Hch _ IH]; [exact Ht|].
  destruct Ht as (_ & H0 & H1 & H2 & H3). apply IH.
  rewrite !elem_of_cons in Hch.
  destruct Hch as [->|[->|[->|[->|Hch]]]]; try assumption. inversion Hch.
Qed.

(** X5. In a tree that the public operations produced, a node with
    children holds no points of its own, and its children lie on the
    four quadrants of its rectangle: same origin and half the width and
    height for NW, the origin moved by the half width for NE, by the
    half height for SW, by both for SE. *)
Theorem inner_nodes_are_quadrants (b : Bounds.t) (c : Z) (qt : QuadTree)
    (root : Node) (b' : Bounds.t) (ps : list Point.t) (cap : Z)
    (c0 c1 c2 c3 : Node) :
  reachable b c qt ->
  Root qt = Some root ->
  node_of (Inner b' ps cap c0 c1 c2 c3) root ->
  ps = []
  /\ Bounds c0 = Bounds.mk (Bounds.X b') (Bounds.Y b')
                   (Bounds.Width b' / 2) (Bounds.Height b' / 2)
  /\ Bounds c1 = Bounds.mk (Bounds.X b' + Bounds.Width b' / 2) (Bounds.Y b')
                   (Bounds.Width b' / 2) (Bounds.Height b' / 2)
  /\ Bounds c2 = Bounds.mk (Bounds.X b') (Bounds.Y b' + Bounds.Height b' / 2)
                   (Bounds.Width b' / 2) (Bounds.Height b' / 2)
  /\ Bounds c3 = Bounds.mk (Bounds.X b' + Bounds.Width b' / 2)
                   (Bounds.Y b' + Bounds.Height b' / 2)
                   (Bounds.Width b' / 2) (Bounds.Height b' / 2).
Proof.
  intros Hreach Hroot Hn.
  pose proof (reachable_layout b c qt root Hreach Hroot) as Hl.
  apply (layout_node_of _ _ Hl) in Hn as Hln.
  destruct (reachable_tree_ok b c qt Hreach) as (root' & Hr & _ & _ & Hcap).
  rewrite Hroot in Hr. injection Hr as <-.
  apply (cap_ok_node_of _ _ _ Hcap) in Hn as (_ & Hps & _).
  destruct Hln as (Hq & _). unfold quadrants in Hq.
  injection Hq as -> -> -> ->. by split_and!.
Qed.

(** X5 at the tree of [four_points]: the root and its children. *)
Lemma inner_nodes_are_quadrants_witness :
  (@nil Point.t) = []
  /\ Bounds split_nw = Bounds.mk 0 0 (100 / 2) (100 / 2)
  /\ Bounds (Leaf (Bounds.mk 50 0 50 50) [] 2)
     = Bounds.mk (0 + 100 / 2) 0 (100 / 2) (100 / 2)
  /\ Bounds (Leaf (Bounds.mk 0 50 50 50) [] 2)
     = Bounds.mk 0 (0 + 100 / 2) (100 / 2) (100 / 2)
  /\ Bounds (Leaf (Bounds.mk 50 50 50 50) [] 2)
     = Bounds.mk (0 + 100 / 2) (0 + 100 / 2) (100 / 2) (100 / 2).
Proof.
  apply (inner_nodes_are_quadrants hundred 2 (mkQuadTree (Some split_root))
           split_root hundred [] 2 split_nw
           (Leaf (Bounds.mk 50 0 50 50) [] 2)
           (Leaf (Bounds.mk 0 50 50 50) [] 2)
           (Leaf (Bounds.mk 50 50 50 50) [] 2)).
  - apply split_root_reachable.
  - reflexivity.
  - apply node_of_here.
Defined.

(** ** What an insertion adds *)

Lemma submseteq_gain_r (g l1 l2 k1 k2 : list Point.t) :
  l1 ⊆+ l2 -> k1 ⊆+ g ++ k2 -> l1 ++ k1 ⊆+ g ++ l2 ++ k2.
Proof.
  intros H1 H2. rewrite (Permutation_app_swap_app g l2 k2).
  by apply submseteq_app.
Qed.

Lemma submseteq_gain_l (g l1 l2 k1 k2 : list Point.t) :
  l1 ⊆+ g ++ l2 -> k1 ⊆+ k2 -> l1 ++ k1 ⊆+ g ++ l2 ++ k2.
Proof. intros H1 H2. rewrite app_assoc. by apply submseteq_app. Qed.

Section Gains.
Variable ins : Node -> Point.t -> option (Node * bool).
Hypothesis ins_gain :
  forall n p n' r, ins n p = Some (n', r) ->
    stored n' ⊆+ gain r p ++ stored n /\ (r = true -> p ∈ stored n').

Lemma first_accepting_gain (cs cs' : quad) (p : Point.t) (r : bool) :
  first_accepting ins cs p = Some (cs', r) ->
  stored4 cs' ⊆+ gain r p ++ stored4 cs /\ (r = true -> p ∈ stored4 cs').
Proof using ins_gain.
  destruct cs as [[[c0 c1] c2] c3], cs' as [[[c0' c1'] c2'] c3'].
  unfold first_accepting, stored4. simpl.
  destruct (ins c0 p) as [[d0 r0]|] eqn:H0; simpl; [|discriminate].
  apply ins_gain in H0 as [S0 M0]. destruct r0.
  { intros [= <- <- <- <- <-]. split.
    - by apply submseteq_gain_l.
    - intros _. rewrite elem_of_app. auto. }
  destruct (ins c1 p) as [[d1 r1]|] eqn:H1; simpl; [|discriminate].
  apply ins_gain in H1 as [S1 M1]. destruct r1.
  { intros [= <- <- <- <- <-]. split.
    - apply submseteq_gain_r; [exact S0|]. by apply submseteq_gain_l.
    - intros _. rewrite !elem_of_app. auto. }
  destruct (ins c2 p) as [[d2 r2]|] eqn:H2; simpl; [|discriminate].
  apply ins_gain in H2 as [S2 M2]. destruct r2.
  { intros [= <- <- <- <- <-]. split.
    - apply submseteq_gain_r; [exact S0|].
      apply submseteq_gain_r; [exact S1|]. by apply submseteq_gain_l.
    - intros _. rewrite !elem_of_app. auto. }
  destruct (ins c3 p) as [[d3 r3]|] eqn:H3; simpl; [|discriminate].
  apply ins_gain in H3 as [S3 M3].
  intros [= <- <- <- <- <-]. split.
  - apply submseteq_gain_r; [exact S0|].
    apply submseteq_gain_r; [exact S1|].
    apply submseteq_gain_r; [exact S2|]. exact S3.
  - intros Hr. rewrite !elem_of_app. auto.
Qed.

Lemma redistribute_gain (ps : list Point.t) (cs cs' : quad) :
  redistribute ins ps cs = Some cs' -> stored4 cs' ⊆+ ps ++ stored4 cs.
Proof using ins_gain.
  revert cs. induction ps as [|p ps IH]; intros cs; simpl.
  - by intros [= <-].
  - destruct (first_accepting ins cs p) as [[cs1 r]|] eqn:H1;
      simpl; [|discriminate].
    intros H2%IH. apply first_accepting_gain in H1 as [H1 _].
    etrans; [exact H2|]. rewrite (Permutation_middle ps (stored4 cs) p).
    apply submseteq_app; [reflexivity|].
    etrans; [exact H1|]. destruct r; simpl; [reflexivity|by apply submseteq_cons].
Qed.
End Gains.

Lemma InsertNode_gain (fuel : nat) :
  forall n p n' r, InsertNode fuel n p = Some (n', r) ->
    stored n' ⊆+ gain r p ++ stored n /\ (r = true -> p ∈ stored n').
Proof.
  induction fuel as [|fuel IH]; intros n p n' r; [discriminate|].
  rewrite InsertNode_unfold. destruct (negb _); [by intros [= <- <-]|].
  destruct n as [b ps cap|b ps cap c0 c1 c2 c3].
  - destruct (Z.of_nat (length ps) <? cap)%Z.
    { intros [= <- <-]. simpl. split.
      - by rewrite (Permutation_cons_append ps p).
      - intros _. rewrite elem_of_app, list_elem_of_singleton. auto. }
    unfold SubDivide_with. cbn [Points Bounds Capacity].
    destruct (redistribute (InsertNode fuel) ps (fresh_children b cap))
      as [[[[d0 d1] d2] d3]|] eqn:Hre; simpl; [|discriminate].
    destruct (first_accepting (InsertNode fuel) (d0, d1, d2, d3) p)
      as [[[[[e0 e1] e2] e3] r']|] eqn:Hfa; simpl; [|discriminate].
    intros [= <- <-].
    apply (redistribute_gain _ IH) in Hre.
    apply (first_accepting_gain _ IH) in Hfa as [Hfa Hin].
    unfold fresh_children, stored4 in *. simpl in *.
    rewrite app_nil_r in Hre. split; [|exact Hin].
    etrans; [exact Hfa|]. by apply submseteq_app.
  - destruct (first_accepting (InsertNode fuel) (c0, c1, c2, c3) p)
      as [[[[[e0 e1] e2] e3] r']|] eqn:Hfa; simpl; [|discriminate].
    intros [= <- <-].
    by apply (first_accepting_gain _ IH) in Hfa.
Qed.

(** X6. An [Insert] never invents or duplicates a point: the points
    stored afterwards are, counted with multiplicity, among the points
    stored before plus the inserted point if the call returned true, and
    without it if the call returned false. *)
Theorem Insert_adds_at_most_the_point (fuel : nat) (qt qt' : QuadTree)
    (p : Point.t) (r : bool) :
  QuadTree.Insert fuel qt p = Returns (qt', r) ->
  stored_in qt' ⊆+ gain r p ++ stored_in qt.
Proof.
  unfold QuadTree.Insert, stored_in. destruct (Root qt) as [root|]; [|discriminate].
  destruct (InsertNode fuel root p) as [[root' res]|] eqn:Hi; [|discriminate].
  intros [= <- <-]. simpl. by apply InsertNode_gain in Hi as [Hi _].
Qed.

(** X6 at the insertion that subdivides [edge_bounds]. *)
Lemma Insert_adds_at_most_the_point_witness :
  exists qt',
    QuadTree.Insert 2 (mkQuadTree (Some (Leaf edge_bounds [edge_point] 1)))
      mid_point = Returns (qt', true)
    /\ stored_in qt' ⊆+ [mid_point; edge_point].
Proof.
  eexists. split; [vm_compute; reflexivity|].
  apply (Insert_adds_at_most_the_point 2
           (mkQuadTree (Some (Leaf edge_bounds [edge_point] 1))) _ mid_point true).
  vm_compute. reflexivity.
Defined.

(** X7. A point that [Insert] accepted is inside the root's rectangle, is
    stored afterwards, and is returned by every [Search] whose area
    contains it. *)
Theorem Insert_then_Search (b : Bounds.t) (c : Z) (fuel : nat)
    (qt qt' : QuadTree) (p : Point.t) (area : Bounds.t) :
  reachable b c qt ->
  QuadTree.Insert fuel qt p = Returns (qt', true) ->
  Bounds.Contains area p = true ->
  Bounds.Contains b p = true
  /\ p ∈ stored_in qt'
  /\ p ∈ QuadTree.Search qt' area.
Proof.
  intros Hreach Hins Harea.
  pose proof (reach_Insert b c fuel qt p qt' true Hreach Hins) as Hreach'.
  destruct (reachable_tree_ok b c qt Hreach) as (root & Hroot & Hb & _).
  destruct (reachable_tree_ok b c qt' Hreach') as (root' & Hroot' & _ & Hw' & _).
  unfold QuadTree.Insert in Hins. rewrite Hroot in Hins.
  destruct (InsertNode fuel root p) as [[root1 res]|] eqn:Hi; [|discriminate].
  injection Hins as <- ->. simpl in Hroot'. injection Hroot' as <-.
  assert (Hin : Bounds.Contains b p = true).
  { destruct fuel as [|fuel]; [discriminate|]. rewrite InsertNode_unfold in Hi.
    rewrite Hb in Hi. destruct (Bounds.Contains b p); [reflexivity|].
    simpl in Hi. discriminate. }
  apply InsertNode_gain in Hi as [_ Hp]. specialize (Hp eq_refl).
  unfold stored_in, QuadTree.Search. simpl. split_and!; [exact Hin|exact Hp|].
  rewrite (SearchTree_complete _ area Hw').
  apply list_elem_of_In, List.filter_In. by rewrite <- list_elem_of_In.
Qed.

Lemma three_tree_reachable : reachable hundred 2 three_tree.
Proof.
  apply (populate_reachable hundred 2 3 (take 3 four_points) (create hundred 2));
    [apply reach_create|vm_compute; reflexivity].
Qed.

(** X7 at the fourth insertion into the tree of [four_points], searched
    with the square from (35, 35) to (45, 45). *)
Lemma Insert_then_Search_witness :
  Bounds.Contains hundred (Point.mk 40 40 (AString "p4")) = true
  /\ Point.mk 40 40 (AString "p4") ∈ stored_in (mkQuadTree (Some split_root))
  /\ Point.mk 40 40 (AString "p4")
     ∈ QuadTree.Search (mkQuadTree (Some split_root)) (Bounds.mk 35 35 10 10).
Proof.
  apply (Insert_then_Search hundred 2 3 three_tree).
  - apply three_tree_reachable.
  - vm_compute. reflexivity.
  - reflexivity.
Defined.

(** ** What a removal takes out *)

(** X8. On a tree that the public operations produced, [Remove point]
    returns true exactly when some stored point has coordinates [==] to
    those of [point]; the number of stored points goes down by one when
    it returns true and stays when it returns false. *)
Theorem Remove_succeeds_iff_match (b : Bounds.t) (c : Z) (qt : QuadTree)
    (point : Point.t) :
  reachable b c qt ->
  exists qt' r,
    QuadTree.Remove qt point = Returns (qt', r)
    /\ (r = true <-> Exists (fun e => same_xy e point = true) (stored_in qt))
    /\ length (stored_in qt)
       = (length (stored_in qt') + (if r then 1 else 0))%nat.
Proof.
  intros (root & Hroot & _ & Hw & _)%reachable_tree_ok.
  unfold QuadTree.Remove, stored_in. rewrite Hroot.
  destruct (RemoveNode root point) as [root' r] eqn:Hr.
  exists (mkQuadTree (Some root')), r. simpl. split; [reflexivity|].
  destruct r.
  - destruct (RemoveNode_true _ _ _ Hr) as (e & He & Hperm). split_and!.
    + split; [intros _|reflexivity]. apply Exists_exists. exists e.
      split; [|exact He]. rewrite Hperm. apply list_elem_of_here.
    + rewrite (Permutation_length Hperm). simpl. lia.
  - split.
    + split; [discriminate|]. intros (e & He & Hm)%Exists_exists.
      pose proof (RemoveNode_finds root point e Hw He Hm) as Hfound.
      by rewrite Hr in Hfound.
    + apply RemoveNode_false in Hr as ->. lia.
Qed.

(** X8 at the tree of [four_points] and the coordinates (20, 20). *)
Lemma Remove_succeeds_iff_match_witness :
  exists qt' r,
    QuadTree.Remove (mkQuadTree (Some split_root)) (Point.mk 20 20 ANil)
    = Returns (qt', r)
    /\ (r = true <-> Exists (fun e => same_xy e (Point.mk 20 20 ANil) = true)
                       (stored_in (mkQuadTree (Some split_root))))
    /\ length (stored_in (mkQuadTree (Some split_root)))
       = (length (stored_in qt') + (if r then 1 else 0))%nat.
Proof.
  apply (Remove_succeeds_iff_match hundred 2 (mkQuadTree (Some split_root))
           (Point.mk 20 20 ANil)).
  apply split_root_reachable.
Defined.

(** X9. [Remove] never merges nodes: whatever it returns, the tree has
    the nodes it had, with their rectangles and capacities; only the
    points of a leaf differ.  A subdivided node stays subdivided even
    when its last point is removed. *)
Theorem Remove_keeps_subdivision (qt qt' : QuadTree) (root : Node)
    (point : Point.t) (r : bool) :
  Root qt = Some root ->
  QuadTree.Remove qt point = Returns (qt', r) ->
  exists root', Root qt' = Some root' /\ skeleton root' = skeleton root.
Proof.
  unfold QuadTree.Remove. intros ->.
  pose proof (RemoveNode_skeleton root point) as Hs.
  destruct (RemoveNode root point) as [root' r'].
  intros [= <- <-]. exists root'. split; [reflexivity|exact Hs].
Qed.

(** X9 at the tree that the insertion of [mid_point] subdivided: after
    the removal of the only point it holds, it still has its four
    children. *)
Lemma Remove_keeps_subdivision_witness :
  exists root root' qt',
    QuadTree.Insert 2 (mkQuadTree (Some (Leaf edge_bounds [edge_point] 1)))
      mid_point
    = Returns (mkQuadTree (Some root), true)
    /\ QuadTree.Remove (mkQuadTree (Some root)) mid_point = Returns (qt', true)
    /\ stored_in qt' = []
    /\ Root qt' = Some root' /\ skeleton root' = skeleton root.
Proof.
  eexists _, _, _. split; [vm_compute; reflexivity|].
  split; [vm_compute; reflexivity|]. split; [reflexivity|].
  split; [reflexivity|].
  match goal with
  | |- skeleton ?n' = skeleton ?n =>
      destruct (Remove_keeps_subdivision (mkQuadTree (Some n))
                  (mkQuadTree (Some n')) n mid_point true eq_refl)
        as (root' & Hroot' & Hs); [vm_compute; reflexivity|];
      injection Hroot' as <-; exact Hs
  end.
Defined.

(** ** What an update does *)

(** X10. When [Update oldPoint newPoint] returns true, [newPoint] is
    inside the root's rectangle and is stored afterwards, and exactly
    one stored point with the coordinates of [oldPoint] was taken out:
    the points stored afterwards are, counted with multiplicity, among
    [newPoint] and the other points stored before. *)
Theorem Update_success (b : Bounds.t) (c : Z) (fuel : nat) (qt qt' : QuadTree)
    (oldPoint newPoint : Point.t) :
  reachable b c qt ->
  QuadTree.Update fuel qt oldPoint newPoint = Returns (qt', true) ->
  Bounds.Contains b newPoint = true
  /\ newPoint ∈ stored_in qt'
  /\ exists e rest,
       same_xy e oldPoint = true
       /\ stored_in qt ≡ₚ e :: rest
       /\ stored_in qt' ⊆+ newPoint :: rest.
Proof.
  intros (root & Hroot & Hb & _ & _)%reachable_tree_ok.
  unfold QuadTree.Update, stored_in. rewrite Hroot, Hb.
  destruct (Bounds.Contains b newPoint); simpl; [|discriminate].
  destruct (RemoveNode root oldPoint) as [root1 []] eqn:Hrm; [|discriminate].
  destruct (InsertNode fuel root1 newPoint) as [[root2 []]|] eqn:Hi;
    [| |discriminate].
  - intros [= <-]. simpl.
    apply InsertNode_gain in Hi as [Hsub Hin].
    destruct (RemoveNode_true _ _ _ Hrm) as (e & He & Hperm).
    split_and!; [reflexivity|by apply Hin|].
    exists e, (stored root1). split_and!; [exact He|exact Hperm|exact Hsub].
  - destruct (InsertNode fuel root2 oldPoint) as [[root3 r3]|]; discriminate.
Qed.

(** X10 at the move of (20, 20) to (60, 60) in the tree of
    [four_points]. *)
Lemma Update_success_witness :
  exists qt',
    QuadTree.Update 2 (mkQuadTree (Some split_root))
      (Point.mk 20 20 ANil) (Point.mk 60 60 (AString "moved"))
    = Returns (qt', true)
    /\ Bounds.Contains hundred (Point.mk 60 60 (AString "moved")) = true
    /\ Point.mk 60 60 (AString "moved") ∈ stored_in qt'
    /\ exists e rest,
         same_xy e (Point.mk 20 20 ANil) = true
         /\ stored_in (mkQuadTree (Some split_root)) ≡ₚ e :: rest
         /\ stored_in qt' ⊆+ Point.mk 60 60 (AString "moved") :: rest.
Proof.
  eexists. split; [vm_compute; reflexivity|].
  apply (Update_success hundred 2 2 (mkQuadTree (Some split_root))).
  - apply split_root_reachable.
  - vm_compute. reflexivity.
Defined.

(** X11. When [Update oldPoint newPoint] returns false, either the tree
    is as it was, or a stored point with the coordinates of [oldPoint]
    was taken out, [newPoint] was refused, and [oldPoint] itself, the
    argument and not the stored point, was offered back: the points
    stored afterwards are among [oldPoint] and the other points stored
    before. *)
Theorem Update_failure (fuel : nat) (qt qt' : QuadTree)
    (oldPoint newPoint : Point.t) :
  QuadTree.Update fuel qt oldPoint newPoint = Returns (qt', false) ->
  qt' = qt
  \/ exists e rest,
       same_xy e oldPoint = true
       /\ stored_in qt ≡ₚ e :: rest
       /\ stored_in qt' ⊆+ oldPoint :: rest.
Proof.
  destruct qt as [[root|]]; unfold QuadTree.Update, stored_in; simpl;
    [|discriminate].
  destruct (Bounds.Contains (Bounds root) newPoint); simpl;
    [|intros [= <-]; by left].
  destruct (RemoveNode root oldPoint) as [root1 []] eqn:Hrm.
  - destruct (InsertNode fuel root1 newPoint) as [[root2 []]|] eqn:Hi;
      [discriminate| |discriminate].
    destruct (InsertNode fuel root2 oldPoint) as [[root3 r3]|] eqn:Hback;
      [|discriminate].
    intros [= <-]. right. simpl.
    apply InsertNode_gain in Hi as [Hsub _].
    apply InsertNode_gain in Hback as [Hsub' _].
    destruct (RemoveNode_true _ _ _ Hrm) as (e & He & Hperm).
    exists e, (stored root1). split_and!; [exact He|exact Hperm|].
    etrans; [exact Hsub'|]. simpl in Hsub.
    destruct r3; simpl.
    + by apply submseteq_skip.
    + by apply submseteq_cons.
  - intros [= <-]. left. by apply RemoveNode_false in Hrm as ->.
Qed.

(** X11 where the old point is put back: the subdivided [edge_bounds]
    holds [mid_point]; the move to [edge_point], which no child
    contains, fails, and the tree then holds the point as the call named
    it. *)
Lemma Update_failure_witness :
  exists qt qt',
    QuadTree.Insert 2 (mkQuadTree (Some (Leaf edge_bounds [edge_point] 1)))
      mid_point
    = Returns (qt, true)
    /\ QuadTree.Update 2 qt mid_relabelled edge_point = Returns (qt', false)
    /\ stored_in qt = [mid_point]
    /\ stored_in qt' = [mid_relabelled]
    /\ (qt' = qt
        \/ exists e rest,
             same_xy e mid_relabelled = true
             /\ stored_in qt ≡ₚ e :: rest
             /\ stored_in qt' ⊆+ mid_relabelled :: rest).
Proof.
  eexists _, _. split; [vm_compute; reflexivity|].
  split; [vm_compute; reflexivity|].
  split; [reflexivity|]. split; [reflexivity|].
  apply (Update_failure 2 _ _ mid_relabelled edge_point).
  vm_compute. reflexivity.
Defined.

(** ** [sortByDistance] on its own *)

(** X12. [sortByDistance] rearranges the slice and loses or invents
    nothing; afterwards no entry is followed by a strictly nearer one;
    when no distance is NaN the distances are non-decreasing between any
    two positions; and entries of equal distance keep their order. *)
Theorem sortByDistance_sorts (points : list PointWithDistance.t) :
  sortByDistance points ≡ₚ points
  /\ Sorted no_descent (sortByDistance points)
  /\ (no_nan points -> StronglySorted le_dist (sortByDistance points))
  /\ forall d, List.filter (at_dist d) (sortByDistance points)
               = List.filter (at_dist d) points.
Proof.
  split_and!.
  - apply sortByDistance_Permutation.
  - apply chain_Sorted, sortByDistance_chain.
  - apply sortByDistance_sorted.
  - intros d. apply sortByDistance_stable.
Qed.

(** X12 at [shuffled], which sorts to [ascending]. *)
Lemma sortByDistance_sorts_witness :
  sortByDistance shuffled = ascending
  /\ sortByDistance shuffled ≡ₚ shuffled
  /\ Sorted no_descent (sortByDistance shuffled)
  /\ StronglySorted le_dist (sortByDistance shuffled)
  /\ forall d, List.filter (at_dist d) (sortByDistance shuffled)
               = List.filter (at_dist d) shuffled.
Proof.
  destruct (sortByDistance_sorts shuffled) as (H1 & H2 & H3 & H4).
  split_and!; [reflexivity|exact H1|exact H2| |exact H4].
  apply H3. repeat constructor.
Defined.

Lemma isort_acc_ordered (rest a : list PointWithDistance.t) :
  chain no_descent (a ++ rest) -> isort_acc a rest = a ++ rest.
Proof.
  revert a. induction rest as [|key rest IH]; intros a H; simpl.
  - by rewrite app_nil_r.
  - assert (Hplace : place key a = a ++ [key]).
    { destruct a as [|x a _] using rev_ind; [reflexivity|].
      rewrite place_snoc. rewrite <- app_assoc in H.
      apply chain_split in H as [_ [Hxk _]]. unfold F64.gtb.
      unfold no_descent in Hxk. rewrite Hxk. by rewrite <- app_assoc. }
    rewrite Hplace, IH; rewrite <- app_assoc; [reflexivity|exact H].
Qed.

(** X13. A slice in which no entry is followed by a strictly nearer one
    comes back from [sortByDistance] as it was; so sorting twice is
    sorting once. *)
Theorem sortByDistance_ordered_unchanged (points : list PointWithDistance.t) :
  (chain no_descent points -> sortByDistance points = points)
  /\ sortByDistance (sortByDistance points) = sortByDistance points.
Proof.
  assert (Hfix : forall l, chain no_descent l -> sortByDistance l = l).
  { intros l Hl. rewrite sortByDistance_isort. destruct l as [|x rest];
      [reflexivity|]. by apply (isort_acc_ordered rest [x]). }
  split; [apply Hfix|]. apply Hfix, sortByDistance_chain.
Qed.

(** X13 at [ascending]. *)
Lemma sortByDistance_ordered_unchanged_witness :
  sortByDistance ascending = ascending
  /\ sortByDistance (sortByDistance ascending) = sortByDistance ascending.
Proof.
  destruct (sortByDistance_ordered_unchanged ascending) as [H1 H2].
  split; [|exact H2]. apply H1. repeat split.
Defined.

(** ** The answer of [KNearest] *)

Lemma rank_submseteq (target : Point.t) (k : Z) (cands : list Point.t) :
  rank target k cands ⊆+ cands.
Proof.
  destruct (rank_prefix target k cands) as (t & -> & [rest Hrest]).
  rewrite <- (map_with_distance_Point target cands).
  rewrite <- (Permutation_map PointWithDistance.Point
                (sortByDistance_Permutation (map (with_distance target) cands))).
  rewrite Hrest, List.map_app. by apply submseteq_inserts_r.
Qed.

(** X14. [KNearest] returns for every tree, target and [k], also for a
    nil root and for [k <= 0] (where the answer is empty); the loop ends
    within 1022 rounds.  The answer holds stored points only, none more
    often than it is stored, and at most [k] of them. *)
Theorem KNearest_returns_stored_points (qt : QuadTree) (target : Point.t)
    (k : Z) (fuel : nat) :
  (1022 <= fuel)%nat ->
  exists res,
    KNearest fuel qt target k = Some res
    /\ res ⊆+ stored_in qt
    /\ (Z.of_nat (length res) <= Z.max 0 k)%Z.
Proof.
  intros Hfuel. unfold KNearest, stored_in.
  destruct (k <=? 0)%Z eqn:Hk.
  { exists []. split_and!; [reflexivity|apply submseteq_nil_l|simpl; lia]. }
  apply Z.leb_gt in Hk.
  destruct (Root qt) as [root|].
  - destruct (candidates_returns fuel root target k Hfuel) as [cands Hc].
    rewrite Hc. exists (rank target k cands). simpl. split_and!.
    + reflexivity.
    + etrans; [apply rank_submseteq|].
      apply sublist_submseteq, (candidates_sublist fuel root target k cands Hc).
    + rewrite rank_length by exact Hk. lia.
  - exists []. split_and!; [reflexivity|reflexivity|simpl; lia].
Qed.

(** X14 at the tree of [four_points], queried for two points from
    (0, 0). *)
Lemma KNearest_returns_stored_points_witness :
  exists res,
    KNearest 1022 (mkQuadTree (Some split_root)) (Point.mk 0 0 ANil) 2 = Some res
    /\ res ⊆+ stored_in (mkQuadTree (Some split_root))
    /\ (Z.of_nat (length res) <= Z.max 0 2)%Z.
Proof.
  apply (KNearest_returns_stored_points (mkQuadTree (Some split_root))
           (Point.mk 0 0 ANil) 2 1022).
  lia.
Defined.

Lemma rank_nearest (target : Point.t) (k : Z) (cands : list Point.t) :
  Forall (fun p => is_nan (Distance target p) = false) cands ->
  exists rest,
    cands ≡ₚ rank target k cands ++ rest
    /\ forall p q, p ∈ rank target k cands -> q ∈ rest -> nearer target p q.
Proof.
  intros Hnan.
  destruct (rank_prefix target k cands) as (t & -> & [rest Hrest]).
  pose proof (sortByDistance_Permutation (map (with_distance target) cands))
    as Hperm.
  assert (Hsorted : StronglySorted le_dist (t ++ rest)).
  { rewrite <- Hrest. apply sortByDistance_sorted. unfold no_nan.
    apply Forall_forall. intros x Hx%list_elem_of_In%in_map_iff.
    destruct Hx as (p & <- & Hp%list_elem_of_In). simpl.
    rewrite Forall_forall in Hnan. by apply Hnan. }
  assert (Hwd : forall x, x ∈ t ++ rest ->
                  x = with_distance target (PointWithDistance.Point x)).
  { intros x Hx. rewrite <- Hrest, Hperm in Hx.
    apply list_elem_of_In, in_map_iff in Hx. by destruct Hx as (p & <- & _). }
  exists (map PointWithDistance.Point rest). split.
  - rewrite <- List.map_app, <- Hrest, (Permutation_map _ Hperm).
    by rewrite map_with_distance_Point.
  - intros p q Hp%list_elem_of_In%in_map_iff Hq%list_elem_of_In%in_map_iff.
    destruct Hp as (x & <- & Hx%list_elem_of_In).
    destruct Hq as (y & <- & Hy%list_elem_of_In).
    pose proof (StronglySorted_app_1_elem_of _ t rest x y Hsorted Hx Hy) as Hle.
    unfold le_dist in Hle. unfold nearer.
    rewrite (Hwd x), (Hwd y) in Hle by (apply elem_of_app; auto).
    exact Hle.
Qed.

(** X15. The answer of [KNearest] is the nearest part of the candidates
    that the last probe found: when no stored point is at a NaN distance
    from [target], the candidates are the answer plus a remainder, and
    every point of the answer is at most as far from [target] as every
    point of the remainder. *)
Theorem KNearest_nearest_of_candidates (qt : QuadTree) (root : Node)
    (target : Point.t) (k : Z) (fuel : nat) :
  Root qt = Some root ->
  (0 < k)%Z ->
  (1022 <= fuel)%nat ->
  Forall (fun p => is_nan (Distance target p) = false) (stored root) ->
  exists cands res rest,
    candidates fuel root target k = Some cands
    /\ KNearest fuel qt target k = Some res
    /\ cands ≡ₚ res ++ rest
    /\ forall p q, p ∈ res -> q ∈ rest -> nearer target p q.
Proof.
  intros Hroot Hk Hfuel Hnan. unfold KNearest. rewrite Hroot.
  destruct (k <=? 0)%Z eqn:Hk0; [apply Z.leb_le in Hk0; lia|].
  destruct (candidates_returns fuel root target k Hfuel) as [cands Hc].
  destruct (rank_nearest target k cands) as (rest & Hperm & Hnear).
  { apply Forall_forall. intros p Hp. rewrite Forall_forall in Hnan.
    by apply Hnan, (candidates_stored fuel root target k cands). }
  exists cands, (rank target k cands), rest. rewrite Hc. simpl. auto.
Qed.

(** X15 at the tree of the distance example, queried for two points
    from the origin. *)
Lemma KNearest_nearest_of_candidates_witness :
  exists cands res rest,
    candidates 1022 ranked_root (Point.mk 0 0 ANil) 2 = Some cands
    /\ KNearest 1022 (mkQuadTree (Some ranked_root)) (Point.mk 0 0 ANil) 2
       = Some res
    /\ cands ≡ₚ res ++ rest
    /\ forall p q, p ∈ res -> q ∈ rest -> nearer (Point.mk 0 0 ANil) p q.
Proof.
  apply (KNearest_nearest_of_candidates (mkQuadTree (Some ranked_root))
           ranked_root (Point.mk 0 0 ANil) 2 1022).
  - reflexivity.
  - lia.
  - lia.
  - repeat constructor.
Defined.

(** ** What a subdivision makes of a node *)

(** X16. When [SubDivide] returns, the node has its rectangle and
    capacity, no points of its own, and four children on the quarters of
    its rectangle (NW, NE, SW, SE, from halving the width and the
    height), each with the node's capacity; the points the children hold
    are, counted with multiplicity, among the points the node held.
    Nothing is said to the caller about points that no child took. *)
Theorem SubDivide_contract (fuel : nat) (n n' : Node) :
  SubDivide fuel n = Some n' ->
  exists c0 c1 c2 c3,
    n' = Inner (Bounds n) [] (Capacity n) c0 c1 c2 c3
    /\ (Bounds c0, Bounds c1, Bounds c2, Bounds c3) = quadrants (Bounds n)
    /\ all4 (fun c => Capacity c = Capacity n) (c0, c1, c2, c3)
    /\ stored n' ⊆+ Points n.
Proof.
  unfold SubDivide, SubDivide_with.
  destruct (redistribute (InsertNode fuel) (Points n)
              (fresh_children (Bounds n) (Capacity n)))
    as [[[[c0 c1] c2] c3]|] eqn:Hre; simpl; [|discriminate].
  intros [= <-]. exists c0, c1, c2, c3.
  pose proof (redistribute_touched _ (InsertNode_touched fuel) _ _ _ Hre) as Tre.
  pose proof (redistribute_gain _ (InsertNode_gain fuel) _ _ _ Hre) as Gre.
  unfold fresh_children in Tre, Gre. simpl in Tre, Gre.
  destruct Tre as ((B0&K0&_) & (B1&K1&_) & (B2&K2&_) & (B3&K3&_)).
  split; [reflexivity|]. split; [by rewrite B0, B1, B2, B3|]. split.
  - assert (Hfresh : forall b, cap_ok (Capacity n) (Leaf b [] (Capacity n)))
      by (intros b; simpl; split; [reflexivity|lia]).
    unfold all4. split_and!; apply cap_ok_Capacity; auto.
  - simpl. by rewrite app_nil_r in Gre.
Qed.

(** X16 at [two_leaf]. *)
Lemma SubDivide_contract_witness :
  SubDivide 1 two_leaf = Some two_split
  /\ exists c0 c1 c2 c3,
       two_split = Inner (Bounds two_leaf) [] (Capacity two_leaf) c0 c1 c2 c3
       /\ (Bounds c0, Bounds c1, Bounds c2, Bounds c3)
          = quadrants (Bounds two_leaf)
       /\ all4 (fun c => Capacity c = Capacity two_leaf) (c0, c1, c2, c3)
       /\ stored two_split ⊆+ Points two_leaf.
Proof.
  split; [reflexivity|].
  apply (SubDivide_contract 1 two_leaf two_split). reflexivity.
Defined.

(** ** Insertions that do not subdivide *)

Section Unsplit.
Variable ins : Node -> Point.t -> option (Node * bool).
Hypothesis ins_unsplit :
  forall n p n' r, ins n p = Some (n', r) -> skeleton n' = skeleton n ->
    stored n' ≡ₚ gain r p ++ stored n.

Lemma first_accepting_unsplit (c0 c1 c2 c3 d0 d1 d2 d3 : Node) (p : Point.t)
    (r : bool) :
  first_accepting ins (c0, c1, c2, c3) p = Some ((d0, d1, d2, d3), r) ->
  skeleton d0 = skeleton c0 -> skeleton d1 = skeleton c1 ->
  skeleton d2 = skeleton c2 -> skeleton d3 = skeleton c3 ->
  stored4 (d0, d1, d2, d3) ≡ₚ gain r p ++ stored4 (c0, c1, c2, c3).
Proof using ins_unsplit.
  unfold first_accepting, stored4. simpl. intros H K0 K1 K2 K3. revert H.
  destruct (ins c0 p) as [[e0 r0]|] eqn:H0; simpl; [|discriminate].
  destruct r0.
  { intros [= <- <- <- <- <-]. rewrite (ins_unsplit _ _ _ _ H0 K0).
    by rewrite <- app_assoc. }
  destruct (ins c1 p) as [[e1 r1]|] eqn:H1; simpl; [|discriminate].
  destruct r1.
  { intros [= <- <- <- <- <-].
    rewrite (ins_unsplit _ _ _ _ H0 K0), (ins_unsplit _ _ _ _ H1 K1).
    simpl. by rewrite <- !Permutation_middle. }
  destruct (ins c2 p) as [[e2 r2]|] eqn:H2; simpl; [|discriminate].
  destruct r2.
  { intros [= <- <- <- <- <-].
    rewrite (ins_unsplit _ _ _ _ H0 K0), (ins_unsplit _ _ _ _ H1 K1),
            (ins_unsplit _ _ _ _ H2 K2).
    simpl. by rewrite <- !Permutation_middle. }
  destruct (ins c3 p) as [[e3 r3]|] eqn:H3; simpl; [|discriminate].
  intros [= <- <- <- <- <-].
  rewrite (ins_unsplit _ _ _ _ H0 K0), (ins_unsplit _ _ _ _ H1 K1),
          (ins_unsplit _ _ _ _ H2 K2), (ins_unsplit _ _ _ _ H3 K3).
  destruct r3; simpl; [by rewrite <- !Permutation_middle|reflexivity].
Qed.
End Unsplit.

Lemma InsertNode_unsplit (fuel : nat) :
  forall n p n' r, InsertNode fuel n p = Some (n', r) ->
    skeleton n' = skeleton n -> stored n' ≡ₚ gain r p ++ stored n.
Proof.
  induction fuel as [|fuel IH]; intros n p n' r; [discriminate|].
  rewrite InsertNode_unfold. destruct (negb _); [by intros [= <- <-]|].
  destruct n as [b ps cap|b ps cap c0 c1 c2 c3].
  - destruct (Z.of_nat (length ps) <? cap)%Z.
    { intros [= <- <-] _. simpl. by rewrite (Permutation_cons_append ps p). }
    unfold SubDivide_with. cbn [Points Bounds Capacity].
    destruct (redistribute (InsertNode fuel) ps (fresh_children b cap))
      as [[[[d0 d1] d2] d3]|] eqn:Hre; simpl; [|discriminate].
    destruct (first_accepting (InsertNode fuel) (d0, d1, d2, d3) p)
      as [[[[[e0 e1] e2] e3] r']|] eqn:Hfa; simpl; [|discriminate].
    intros [= <- <-]. discriminate.
  - destruct (first_accepting (InsertNode fuel) (c0, c1, c2, c3) p)
      as [[[[[e0 e1] e2] e3] r']|] eqn:Hfa; simpl; [|discriminate].
    intros [= <- <-] [= K0 K1 K2 K3].
    by apply (first_accepting_unsplit _ IH) in Hfa.
Qed.

(** X17. Points are lost by subdivision only: when an [Insert] returns
    and has subdivided no node (the nodes, their rectangles and their
    capacities are as before), every point stored before is still
    stored, and the inserted point has been added exactly when the call
    returned true. *)
Theorem Insert_without_subdivision (fuel : nat) (qt qt' : QuadTree)
    (root root' : Node) (p : Point.t) (r : bool) :
  Root qt = Some root ->
  QuadTree.Insert fuel qt p = Returns (qt', r) ->
  Root qt' = Some root' ->
  skeleton root' = skeleton root ->
  stored_in qt' ≡ₚ gain r p ++ stored_in qt.
Proof.
  unfold QuadTree.Insert, stored_in. intros ->.
  destruct (InsertNode fuel root p) as [[root1 res]|] eqn:Hi; [|discriminate].
  intros [= <- <-]. simpl. intros [= <-] Hs. by apply (InsertNode_unsplit fuel).
Qed.

(** X17 at the fourth insertion into the tree of [four_points]. *)
Lemma Insert_without_subdivision_witness :
  stored_in (mkQuadTree (Some split_root))
  ≡ₚ gain true (Point.mk 40 40 (AString "p4")) ++ stored_in three_tree.
Proof.
  apply (Insert_without_subdivision 3 three_tree (mkQuadTree (Some split_root))
           three_root split_root (Point.mk 40 40 (AString "p4")) true);
    reflexivity.
Defined.

(** X18. On a tree that the public operations produced, a [Search] over
    the rectangle the tree was created with returns every stored point,
    in storage order. *)
Theorem Search_root_rectangle (b : Bounds.t) (c : Z) (qt : QuadTree) :
  reachable b c qt -> QuadTree.Search qt b = stored_in qt.
Proof.
  intros (root & Hroot & Hb & Hw & _)%reachable_tree_ok.
  unfold QuadTree.Search, stored_in. rewrite Hroot.
  rewrite (SearchTree_complete _ b Hw), <- Hb. apply filter_all.
  destruct root; simpl in Hw; by destruct Hw.
Qed.

(** X18 at the tree of [four_points]. *)
Lemma Search_root_rectangle_witness :
  QuadTree.Search (mkQuadTree (Some split_root)) hundred = four_points.
Proof.
  apply (Search_root_rectangle hundred 2 (mkQuadTree (Some split_root))).
  apply split_root_reachable.
Defined.

(** ** A tree without capacity *)

Section Refusals.
Variable P : Node -> Prop.
Variable ins : Node -> Point.t -> option (Node * bool).
Hypothesis ins_refuses :
  forall n p n' r, P n -> ins n p = Some (n', r) -> r = false.

Lemma first_accepting_refuses (cs cs' : quad) (p : Point.t) (r : bool) :
  all4 P cs -> first_accepting ins cs p = Some (cs', r) -> r = false.
Proof using ins_refuses.
  destruct cs as [[[c0 c1] c2] c3], cs' as [[[c0' c1'] c2'] c3'].
  intros (P0 & P1 & P2 & P3). unfold first_accepting. simpl.
  destruct (ins c0 p) as [[d0 r0]|] eqn:H0; simpl; [|discriminate].
  rewrite (ins_refuses _ _ _ _ P0 H0).
  destruct (ins c1 p) as [[d1 r1]|] eqn:H1; simpl; [|discriminate].
  rewrite (ins_refuses _ _ _ _ P1 H1).
  destruct (ins c2 p) as [[d2 r2]|] eqn:H2; simpl; [|discriminate].
  rewrite (ins_refuses _ _ _ _ P2 H2).
  destruct (ins c3 p) as [[d3 r3]|] eqn:H3; simpl; [|discriminate].
  intros [= <- <- <- <- <-]. exact (ins_refuses _ _ _ _ P3 H3).
Qed.

(** When no child accepts, one child that does not come back keeps the
    loop from coming back. *)
Lemma first_accepting_hangs (c0 c1 c2 c3 : Node) (p : Point.t) :
  all4 P (c0, c1, c2, c3) ->
  ins c0 p = None \/ ins c1 p = None \/ ins c2 p = None \/ ins c3 p = None ->
  first_accepting ins (c0, c1, c2, c3) p = None.
Proof using ins_refuses.
  intros (P0 & P1 & P2 & P3) Hnone. unfold first_accepting. simpl.
  destruct (ins c0 p) as [[d0 r0]|] eqn:H0; simpl; [|reflexivity].
  rewrite (ins_refuses _ _ _ _ P0 H0).
  destruct (ins c1 p) as [[d1 r1]|] eqn:H1; simpl; [|reflexivity].
  rewrite (ins_refuses _ _ _ _ P1 H1).
  destruct (ins c2 p) as [[d2 r2]|] eqn:H2; simpl; [|reflexivity].
  rewrite (ins_refuses _ _ _ _ P2 H2).
  destruct (ins c3 p) as [[d3 r3]|] eqn:H3; simpl; [|reflexivity].
  destruct Hnone as [?|[?|[?|?]]]; discriminate.
Qed.
End Refusals.

Lemma InsertNode_no_capacity (c : Z) (fuel : nat) :
  (c <= 0)%Z ->
  forall n p n' r, cap_ok c n -> InsertNode fuel n p = Some (n', r) -> r = false.
Proof.
  intros Hc. induction fuel as [|fuel IH]; intros n p n' r Hn; [discriminate|].
  rewrite InsertNode_unfold. destruct (negb _); [by intros [= <- <-]|].
  destruct n as [b ps cap|b ps cap c0 c1 c2 c3].
  - destruct Hn as [-> Hlen].
    destruct (Z.of_nat (length ps) <? c)%Z eqn:Hroom;
      [apply Z.ltb_lt in Hroom; lia|].
    unfold SubDivide_with. cbn [Points Bounds Capacity].
    destruct (redistribute (InsertNode fuel) ps (fresh_children b c))
      as [[[[d0 d1] d2] d3]|] eqn:Hre; simpl; [|discriminate].
    destruct (first_accepting (InsertNode fuel) (d0, d1, d2, d3) p)
      as [[[[[e0 e1] e2] e3] r']|] eqn:Hfa; simpl; [|discriminate].
    intros [= <- <-].
    apply (redistribute_touched _ (InsertNode_touched fuel)) in Hre.
    unfold fresh_children in Hre. simpl in Hre.
    destruct Hre as ((_&K0&_) & (_&K1&_) & (_&K2&_) & (_&K3&_)).
    assert (Hfresh : forall b', cap_ok c (Leaf b' [] c))
      by (intros b'; simpl; split; [reflexivity|lia]).
    apply (first_accepting_refuses (cap_ok c) _ IH) in Hfa; [exact Hfa|].
    unfold all4. split_and!; auto.
  - destruct Hn as (_ & _ & Hcs).
    destruct (first_accepting (InsertNode fuel) (c0, c1, c2, c3) p)
      as [[[[[e0 e1] e2] e3] r']|] eqn:Hfa; simpl; [|discriminate].
    intros [= <- <-].
    by apply (first_accepting_refuses (cap_ok c) _ IH) in Hfa.
Qed.

Lemma cap_ok_empty (c : Z) (n : Node) :
  (c <= 0)%Z -> cap_ok c n -> stored n = [].
Proof.
  intros Hc. induction n as [b ps cap|b ps cap c0 IH0 c1 IH1 c2 IH2 c3 IH3];
    simpl.
  - intros [_ Hlen]. destruct ps; [reflexivity|simpl in Hlen; lia].
  - intros (_ & _ & H0 & H1 & H2 & H3).
    by rewrite IH0, IH1, IH2, IH3.
Qed.

(** An empty leaf without capacity does not come back from the
    insertion of a point that stays covered: the leaf is subdivided, a
    child that holds the point is again such a leaf, and the other
    children refuse. *)
Lemma InsertNode_covered (c : Z) (p : Point.t) :
  (c <= 0)%Z ->
  forall n b, covered n b p = true -> InsertNode (S n) (Leaf b [] c) p = None.
Proof.
  intros Hc.
  assert (Hstep : forall n b,
            Bounds.Contains b p = true ->
            first_accepting (InsertNode n) (fresh_children b c) p = None ->
            InsertNode (S n) (Leaf b [] c) p = None).
  { intros n b Hin Hfa. rewrite InsertNode_unfold. cbn [Bounds].
    rewrite Hin. cbn [negb length].
    destruct (Z.of_nat 0 <? c)%Z eqn:Hroom; [apply Z.ltb_lt in Hroom; lia|].
    unfold SubDivide_with. cbn [Points Bounds Capacity redistribute].
    destruct (fresh_children b c) as [[[f0 f1] f2] f3]. cbn.
    by rewrite Hfa. }
  induction n as [|n IH]; intros b Hcov; cbn [covered] in Hcov;
    apply andb_true_iff in Hcov as [Hin Hcov]; apply Hstep; try exact Hin.
  - by apply first_accepting_stuck.
  - unfold fresh_children.
    apply (first_accepting_hangs (cap_ok c) (InsertNode (S n))
             (InsertNode_no_capacity c (S n) Hc)).
    + unfold all4. simpl. split_and!; try reflexivity; lia.
    + unfold quadrants in Hcov. rewrite !orb_true_iff in Hcov.
      destruct Hcov as [[[H|H]|H]|H]; apply IH in H; auto.
Qed.

Lemma covered_origin (d : Any) (n : nat) :
  forall w h, origin_cell w -> origin_cell h ->
    covered n (Bounds.mk 0 0 w h) (Point.mk 0 0 d) = true.
Proof.
  induction n as [|n IH]; intros w h Hw Hh; cbn [covered];
    rewrite (Contains_origin w h d Hw Hh); [reflexivity|].
  unfold quadrants. cbn [Bounds.X Bounds.Y Bounds.Width Bounds.Height].
  rewrite (IH _ _ (origin_cell_half w Hw) (origin_cell_half h Hh)).
  reflexivity.
Qed.

(** X19. A tree created with a capacity of 0 or less never takes a
    point.  Its first [Insert] never returns when the point is inside
    the rectangle and, at every depth, inside one of the quarters; and
    whenever an [Insert] does return, on that tree or on one built from
    it, it returns false and the tree stores nothing. *)
Theorem Insert_without_capacity (b : Bounds.t) (c : Z) (p : Point.t) :
  (c <= 0)%Z ->
  ((forall n, covered n b p = true) ->
   forall fuel, QuadTree.Insert fuel (create b c) p = OutOfFuel)
  /\ (forall qt fuel qt' r,
        reachable b c qt ->
        QuadTree.Insert fuel qt p = Returns (qt', r) ->
        r = false /\ stored_in qt' = []).
Proof.
  intros Hc. split.
  - intros Hcov [|fuel]; unfold QuadTree.Insert, create; cbn [Root];
      [reflexivity|].
    by rewrite (InsertNode_covered c p Hc fuel b (Hcov fuel)).
  - intros qt fuel qt' r Hreach Hins.
    pose proof (reach_Insert b c fuel qt p qt' r Hreach Hins) as Hreach'.
    destruct (reachable_tree_ok b c qt Hreach) as (root & Hroot & _ & _ & Hcap).
    destruct (reachable_tree_ok b c qt' Hreach')
      as (root' & Hroot' & _ & _ & Hcap').
    split.
    + unfold QuadTree.Insert in Hins. rewrite Hroot in Hins.
      destruct (InsertNode fuel root p) as [[root1 res]|] eqn:Hi; [|discriminate].
      injection Hins as _ <-. by apply (InsertNode_no_capacity c fuel Hc) in Hi.
    + unfold stored_in. rewrite Hroot'. by apply (cap_ok_empty c).
Qed.

(** X19 at a tree of capacity 0 over (0, 0, 100, 100) and its corner
    point (0, 0), which is inside the rectangle. *)
Lemma Insert_without_capacity_witness :
  Bounds.Contains hundred (Point.mk 0 0 ANil) = true
  /\ QuadTree.Insert 1000 (create hundred 0) (Point.mk 0 0 ANil) = OutOfFuel.
Proof.
  split; [reflexivity|].
  destruct (Insert_without_capacity hundred 0 (Point.mk 0 0 ANil)) as [Hhang _];
    [lia|].
  apply Hhang. intros n. apply covered_origin; apply origin_cell_100.
Defined.

(** ** [Distance] *)

Module F64Arith.

Section Rounding.
Variables prec emax : Z.







End Rounding.

Local Open Scope float_scope.



Lemma finite_cases (x : float) :
  is_finite x = true ->
  (exists s, Prim2SF x = S754_zero s)
  \/ (exists s m e, Prim2SF x = S754_finite s m e).
Proof.
  unfold is_finite, is_nan, is_infinity.
  rewrite !FloatAxioms.eqb_spec, abs_spec.
  destruct (Prim2SF x) as [s|s| |s m e]; eauto.
  - destruct s; discriminate.
  - discriminate.
Qed.

Lemma sub_self (x : float) : is_finite x = true -> x - x = 0.
Proof.
  intros Hx. apply Prim2SF_inj. rewrite sub_spec.
  destruct (finite_cases x Hx) as [[s ->]|(s & m & e & ->)].
  - destruct s; reflexivity.
  - unfold SF64sub, SFsub. cbv zeta. rewrite Z.sub_diag. reflexivity.
Qed.

(** A value that compares [<=] with anything is not NaN. *)
Lemma leb_eqb_self (a b : float) : (a <=? b) = true -> (a =? a) = true.
Proof.
  rewrite FloatAxioms.leb_spec, FloatAxioms.eqb_spec.
  unfold SFleb, SFeqb, SFcompare.
  destruct (Prim2SF a) as [[]|[]| |[] m e], (Prim2SF b) as [[]|[]| |[] m' e'];
    try easy; intros _; rewrite Z.compare_refl;
    change (Pos.compare_cont Eq m m) with (Pos.compare m m);
    by rewrite Pos.compare_refl.
Qed.

End F64Arith.


(** X21. A point with finite coordinates is at distance 0 from
    itself. *)
Theorem Distance_self (p : Point.t) :
  is_finite (Point.X p) = true ->
  is_finite (Point.Y p) = true ->
  Distance p p = 0%float.
Proof.
  intros Hx Hy. unfold Distance. cbv zeta.
  rewrite (F64Arith.sub_self _ Hx), (F64Arith.sub_self _ Hy). reflexivity.
Qed.

(** X21 at the point (3, 4). *)
Lemma Distance_self_witness :
  Distance (Point.mk 3 4 ANil) (Point.mk 3 4 ANil) = 0%float.
Proof. apply (Distance_self (Point.mk 3 4 ANil)); reflexivity. Defined.

(** ** Insertion followed by removal *)

Lemma Contains_same_xy_self (b : Bounds.t) (p : Point.t) :
  Bounds.Contains b p = true -> same_xy p p = true.
Proof.
  unfold Bounds.Contains, same_xy. rewrite !andb_true_iff.
  intros [[[_ Hx] Hy] _]. split; eapply F64Arith.leb_eqb_self; eassumption.
Qed.

(** X22. What [Insert] accepted, [Remove] finds: after an [Insert] of
    [p] that returned true, [Remove p] returns true and the number of
    stored points goes down by one.  (The stored point that goes is the
    first one found with the coordinates of [p].) *)
Theorem Insert_then_Remove (b : Bounds.t) (c : Z) (fuel : nat)
    (qt qt1 : QuadTree) (p : Point.t) :
  reachable b c qt ->
  QuadTree.Insert fuel qt p = Returns (qt1, true) ->
  exists qt2 e,
    QuadTree.Remove qt1 p = Returns (qt2, true)
    /\ same_xy e p = true
    /\ stored_in qt1 ≡ₚ e :: stored_in qt2.
Proof.
  intros Hreach Hins.
  pose proof (reach_Insert b c fuel qt p qt1 true Hreach Hins) as Hreach1.
  destruct (reachable_tree_ok b c qt Hreach) as (root & Hroot & Hb & _).
  destruct (reachable_tree_ok b c qt1 Hreach1) as (root1 & Hroot1 & _ & Hw1 & _).
  unfold QuadTree.Insert in Hins. rewrite Hroot in Hins.
  destruct (InsertNode fuel root p) as [[root' res]|] eqn:Hi; [|discriminate].
  injection Hins as <- ->. simpl in Hroot1. injection Hroot1 as <-.
  assert (Hin : Bounds.Contains b p = true).
  { destruct fuel as [|fuel]; [discriminate|]. rewrite InsertNode_unfold in Hi.
    rewrite Hb in Hi. destruct (Bounds.Contains b p); [reflexivity|].
    simpl in Hi. discriminate. }
  apply InsertNode_gain in Hi as [_ Hp]. specialize (Hp eq_refl).
  pose proof (RemoveNode_finds root' p p Hw1 Hp (Contains_same_xy_self b p Hin))
    as Hfound.
  unfold QuadTree.Remove, stored_in. simpl.
  destruct (RemoveNode root' p) as [root2 r2] eqn:Hr. simpl in Hfound. subst r2.
  destruct (RemoveNode_true _ _ _ Hr) as (e & He & Hperm).
  exists (mkQuadTree (Some root2)), e. simpl. auto.
Qed.

(** X22 at the fourth insertion into the tree of [four_points]. *)
Lemma Insert_then_Remove_witness :
  exists qt2 e,
    QuadTree.Remove (mkQuadTree (Some split_root))
      (Point.mk 40 40 (AString "p4")) = Returns (qt2, true)
    /\ same_xy e (Point.mk 40 40 (AString "p4")) = true
    /\ stored_in (mkQuadTree (Some split_root)) ≡ₚ e :: stored_in qt2.
Proof.
  apply (Insert_then_Remove hundred 2 3 three_tree).
  - apply three_tree_reachable.
  - vm_compute. reflexivity.
Defined.
